(** * Regional filtering of the gridded sea-ice dataset

    A shallow embedding of [restrictRegionally] (and of its inner helper
    [checkKeys]) as the function is written in the regional-analysis notebook
    and, word for word the same, in [mapping.ipynb].

    The Python function works on an xarray [Dataset] object.  It builds a
    pandas table from the region catalogue, validates the requested keys,
    takes a shallow copy of the dataset, rewrites every data variable of the
    copy but the sea-ice concentration, records a summary string in the
    attributes of the copy and prints it.  The embedding keeps that shape: a
    small state-and-exception monad over a store of dataset objects and a
    console, with the function body written in it statement by statement. *)

From Stdlib Require Import QArith.
From stdpp Require Import gmap strings list fin_maps pretty.

Open Scope Z_scope.
Open Scope string_scope.

(** ** Data *)

(** A stored number.  The filter never computes with the numbers: it copies
    them or replaces them by the missing-value sentinel, so a number other
    than the sentinel is kept as an opaque code. *)
Inductive cell : Type :=
  | NaN
  | Num (x : Z).

#[global] Instance cell_eq_dec : EqDecision cell.
Proof. solve_decision. Defined.

(** A data variable taken out of a dataset ([dataset[var]]): its values, one
    row of grid cells per time step, together with the [region_mask]
    coordinate it shares with the dataset (one region identifier per grid
    cell, the same at every time step). *)
Record DataArray : Type := {
  values : list (list cell);
  coord_region_mask : list Z
}.

(** The dataset object: the data variables by name, the [region_mask]
    coordinate, the two catalogue attributes of that coordinate
    ([region_mask.attrs['keys']] and [region_mask.attrs['labels']]) and the
    dataset's own attributes. *)
Record Dataset : Type := {
  data_vars : gmap string (list (list cell));
  region_mask : list Z;
  mask_keys : list Z;
  mask_labels : list string;
  attrs : gmap string string
}.

(** What a caller may pass as [regionKeyList]: a scalar, a string, or a
    container of region keys.  The keys are integers, as the docstring and
    every call in the notebooks have them. *)
Inductive pyval : Type :=
  | PyInt (n : Z)
  | PyStr (s : string)
  | PySet (s : list Z)
  | PyTuple (l : list Z)
  | PyList (l : list Z).

(** [type(v) != list] is an exact type test. *)
Definition is_list (v : pyval) : bool :=
  match v with
  | PyList _ => true
  | _ => false
  end.

(** The members of a container, in iteration order.  Only reached for lists:
    every other value has been rejected by the type test before the first
    iteration or membership test. *)
Definition elements (v : pyval) : list Z :=
  match v with
  | PyList l | PyTuple l | PySet l => l
  | PyInt _ | PyStr _ => []
  end.

(** ** Exceptions, console and store *)

Inductive exn : Type :=
  | ValueError (msg : string)
  | NameError (msg : string)
  | KeyError (key : string).

Inductive event : Type :=
  | Warned (msg : string)    (* a UserWarning shown to the caller *)
  | Printed (msg : string).  (* a line written by [print] *)

#[global] Instance exn_eq_dec : EqDecision exn.
Proof. solve_decision. Defined.
#[global] Instance event_eq_dec : EqDecision event.
Proof. solve_decision. Defined.

Definition loc : Type := positive.

Record state : Type := {
  heap : gmap positive Dataset;
  console : list event
}.

(** The session the function runs in.  The body uses [warnings] as a global
    name: the regional-analysis notebook never imports the module,
    [mapping.ipynb] imports it and then calls
    [warnings.filterwarnings('ignore')].  [warnings_suppressed] says whether
    the warning machinery of the session drops a warning it is handed, as
    that filter does. *)
Record globals : Type := {
  warnings_imported : bool;
  warnings_suppressed : bool
}.

Definition regional_analysis_env : globals :=
  {| warnings_imported := false; warnings_suppressed := false |}.

Definition mapping_env : globals :=
  {| warnings_imported := true; warnings_suppressed := true |}.

(** ** The monad *)

Definition M (A : Type) : Type := state → (exn + A) * state.

#[global] Instance M_ret : MRet M := λ A a σ, (inr a, σ).

#[global] Instance M_bind : MBind M := λ A B f m σ,
  match m σ with
  | (inl e, σ') => (inl e, σ')
  | (inr a, σ') => f a σ'
  end.

Definition raise {A : Type} (e : exn) : M A := λ σ, (inl e, σ).

Definition emit (ev : event) : M unit := λ σ,
  (inr (), {| heap := heap σ; console := console σ ++ [ev] |}).

Fixpoint for_each {A : Type} (l : list A) (body : A → M unit) : M unit :=
  match l with
  | [] => mret ()
  | x :: l' => body x ;; for_each l' body
  end.

(** A list comprehension whose element expression may raise. *)
Fixpoint comprehension {A B : Type} (f : A → M B) (l : list A) : M (list B) :=
  match l with
  | [] => mret []
  | x :: l' => y ← f x; ys ← comprehension f l'; mret (y :: ys)
  end.

(** ** Primitives of the libraries the function calls *)

Definition nl : string := String (Ascii.ascii_of_nat 10) EmptyString.
Definition dquote : string := String (Ascii.ascii_of_nat 34) EmptyString.

Definition print (s : string) : M unit := emit (Printed s).

(** [warnings.warn(msg)]: looking up the global [warnings] fails when the
    module was never imported; in a session that suppresses warnings the call
    returns without showing anything. *)
Definition warnings_warn (g : globals) (msg : string) : M unit :=
  if warnings_imported g then
    if warnings_suppressed g then mret () else emit (Warned msg)
  else raise (NameError "name 'warnings' is not defined").

(** Reading the object a name is bound to.  A Python name always refers to a
    live object, so the failure branch is never taken on a store that holds
    the dataset. *)
Definition load (d : loc) : M Dataset := λ σ,
  match heap σ !! d with
  | Some ds => (inr ds, σ)
  | None => (inl (NameError "name 'dataset' is not defined"), σ)
  end.

Definition store (d : loc) (ds : Dataset) : M unit := λ σ,
  (inr (), {| heap := <[d := ds]> (heap σ); console := console σ |}).

(** A new object, at a reference no object of the store has. *)
Definition alloc (ds : Dataset) : M loc := λ σ,
  let new := fresh (dom (heap σ)) in
  (inr new, {| heap := <[new := ds]> (heap σ); console := console σ |}).

(** [dataset.copy()]: a new dataset object with its own variable and
    attribute dictionaries.  The copy is shallow, the arrays behind the
    variables are shared with the original; no statement of the function
    writes into an array ([where] builds a new one), so arrays are plain
    values here and only the dataset objects live in the store. *)
Definition Dataset_copy (d : loc) : M loc :=
  ds ← load d; alloc ds.

(** The names [for var in dataset.data_vars] runs through, each once.  The
    order is that of the map; the loop body touches one variable per turn,
    so the order has no effect ([foldl_mask_step_all]). *)
Definition data_var_names (d : loc) : M (list string) :=
  ds ← load d; mret (map_to_list (data_vars ds)).*1.

(** [dataset[var]]. *)
Definition getitem (d : loc) (var : string) : M DataArray :=
  ds ← load d;
  match data_vars ds !! var with
  | Some v => mret {| values := v; coord_region_mask := region_mask ds |}
  | None => raise (KeyError var)
  end.

(** [dataset[var] = array].  The array brings the [region_mask] coordinate
    it was taken out with, which is the dataset's own. *)
Definition setitem (d : loc) (var : string) (a : DataArray) : M unit :=
  ds ← load d;
  store d {| data_vars := <[var := values a]> (data_vars ds);
             region_mask := region_mask ds;
             mask_keys := mask_keys ds;
             mask_labels := mask_labels ds;
             attrs := attrs ds |}.

(** [dataset.attrs[k] = v] and [dataset.attrs[k]]. *)
Definition set_attr (d : loc) (k v : string) : M unit :=
  ds ← load d;
  store d {| data_vars := data_vars ds;
             region_mask := region_mask ds;
             mask_keys := mask_keys ds;
             mask_labels := mask_labels ds;
             attrs := <[k := v]> (attrs ds) |}.

Definition get_attr (d : loc) (k : string) : M string :=
  ds ← load d;
  match attrs ds !! k with
  | Some v => mret v
  | None => raise (KeyError k)
  end.

(** [array.where(cond)] for a condition [cond] on the [region_mask]
    coordinate: at every time step a cell whose region identifier fails the
    condition becomes the sentinel, every other cell is kept.  The coordinate
    has the shape of the grid, so the last branch (a cell without a region
    identifier) does not arise. *)
Definition where_row (cond : Z → bool) (mask : list Z) (row : list cell) : list cell :=
  imap (λ i c, match mask !! i with
               | Some r => if cond r then c else NaN
               | None => c
               end) row.

Definition DataArray_where (cond : Z → bool) (a : DataArray) : DataArray :=
  {| values := where_row cond (coord_region_mask a) <$> values a;
     coord_region_mask := coord_region_mask a |}.

(** [regionalVar.where(regionalVar['region_mask'] != key)]. *)
Definition where_region_mask_ne (a : DataArray) (key : Z) : DataArray :=
  DataArray_where (λ r, bool_decide (r ≠ key)) a.

(** [pd.DataFrame({'key': keys, 'label': labels})]: the rows of the table;
    pandas refuses columns of different lengths with a [ValueError]. *)
Definition DataFrame (keys : list Z) (labels : list string) : M (list (Z * string)) :=
  if decide (length keys = length labels) then mret (zip keys labels)
  else raise (ValueError "arrays must all be same length").

(** [series.item()]: the one element of a series of length one; numpy
    raises a [ValueError] for any other length. *)
Definition item (s : list string) : M string :=
  match s with
  | [x] => mret x
  | _ => raise (ValueError "can only convert an array of size 1 to a Python scalar")
  end.

(** [str(key)] and [sep.join(strings)] (the labels are strings already, so
    [map(str, labels)] leaves them as they are). *)
Definition str (key : Z) : string := pretty key.

Definition join (sep : string) (l : list string) : string := String.concat sep l.

(** ** The messages of the source *)

Definition not_a_list_msg : string :=
  "regionKeyList needs to be a list. " ++ nl ++
  "For example, if you want to restrict data to the Beaufort Sea, define regionKeyList = [13]".

Definition unknown_key_msg (key : Z) : string :=
  "Region key " ++ str key ++ " does not exist in region mask. " ++ nl ++
  " Redefine regionKeyList with key numbers from table".

(** The two validation failures.  Both are [ValueError]s in the source and
    differ by their message; the specification calls them
    InvalidArgumentType and UnknownRegionKey. *)
Definition InvalidArgumentType : exn := ValueError not_a_list_msg.

Definition UnknownRegionKey (key : Z) : exn := ValueError (unknown_key_msg key).

Definition empty_selection_msg : string :=
  "You removed all the data from the dataset. Are you sure you wanted to do this? " ++ nl ++
  " If not, make sure the list regionKeyList is not empty and try again. " ++ nl ++
  " If you intended to keep data from all regions, set regionKeyList = list(tbl[" ++
  dquote ++ "key" ++ dquote ++ "])".

Definition all_regions_msg : string :=
  "Regions selected: All " ++ nl ++ "No regions will be removed".

Definition conc : string := "seaice_conc_monthly_cdr".

Definition inner_arctic : gset Z := list_to_set [10; 11; 12; 13; 15].

(** ** The function *)

Definition checkKeys (g : globals) (regionKeyList : pyval)
    (regionTbl : list (Z * string)) : M unit :=
  (if is_list regionKeyList then mret () else raise (ValueError not_a_list_msg));;
  for_each (elements regionKeyList) (λ key,
    if bool_decide (key ∉ regionTbl.*1)
    then raise (ValueError (unknown_key_msg key))
    else mret ());;
  if bool_decide (length (elements regionKeyList) = 0%nat)
  then warnings_warn g empty_selection_msg
  else mret ().

Definition restrictRegionally (g : globals) (dataset : loc)
    (regionKeyList : pyval) : M loc :=
  ds ← load dataset;
  regionTbl ← DataFrame (mask_keys ds) (mask_labels ds);
  checkKeys g regionKeyList regionTbl;;
  let keysToRemove :=
    filter (λ key, key ∉ elements regionKeyList) regionTbl.*1 in
  regionalDataset ← Dataset_copy dataset;
  names ← data_var_names dataset;
  for_each names (λ var,
    if bool_decide (var ≠ conc) then
      regionalVar ← getitem regionalDataset var;
      let regionalVar := foldl where_region_mask_ne regionalVar keysToRemove in
      setitem regionalDataset var regionalVar
    else mret ());;
  labels ← comprehension
              (λ key, item (filter (λ row, row.1 = key) regionTbl).*2)
              (elements regionKeyList);
  (if bool_decide (length labels < length regionTbl)%nat then
     (if bool_decide (list_to_set (elements regionKeyList) = inner_arctic)
      then set_attr regionalDataset "regions with data" "Inner Arctic"
      else set_attr regionalDataset "regions with data" (join ", " labels));;
     summary ← get_attr regionalDataset "regions with data";
     print ("Regions selected: " ++ summary)
   else
     set_attr regionalDataset "regions with data" "All";;
     print all_regions_msg);;
  mret regionalDataset.

(** * Notions used to state and prove the properties *)

(** ** Updated copies of a state and of a dataset *)

Definition set_heap (σ : state) (h : gmap positive Dataset) : state :=
  {| heap := h; console := console σ |}.

Definition with_vars (ds : Dataset) (m : gmap string (list (list cell))) : Dataset :=
  {| data_vars := m;
     region_mask := region_mask ds;
     mask_keys := mask_keys ds;
     mask_labels := mask_labels ds;
     attrs := attrs ds |}.

Definition with_attr (ds : Dataset) (k v : string) : Dataset :=
  {| data_vars := data_vars ds;
     region_mask := region_mask ds;
     mask_keys := mask_keys ds;
     mask_labels := mask_labels ds;
     attrs := <[k := v]> (attrs ds) |}.

(** ** The loop over the data variables, seen on the values *)

(** The values one variable ends with: the per-key loop run on them. *)
Definition mask_loop (ks mask : list Z) (v : list (list cell)) : list (list cell) :=
  values (foldl where_region_mask_ne
            {| values := v; coord_region_mask := mask |} ks).

(** One turn of the outer loop, seen on the variables of the copy. *)
Definition mask_step (ks mask : list Z) (m : gmap string (list (list cell)))
    (var : string) : gmap string (list (list cell)) :=
  if bool_decide (var ≠ conc) then
    match m !! var with
    | Some v => <[var := mask_loop ks mask v]> m
    | None => m
    end
  else m.

(** All turns at once. *)
Definition mask_vars (ks mask : list Z) (m : gmap string (list (list cell))) :
    gmap string (list (list cell)) :=
  map_imap (λ var v, Some (if bool_decide (var ≠ conc)
                           then mask_loop ks mask v else v)) m.

(** ** The labels, the summary and the console, as values *)

Definition item_error : exn :=
  ValueError "can only convert an array of size 1 to a Python scalar".

Fixpoint labels_of (tbl : list (Z * string)) (rkl : list Z) : exn + list string :=
  match rkl with
  | [] => inr []
  | key :: rkl' =>
      match (filter (λ row, row.1 = key) tbl).*2 with
      | [x] =>
          match labels_of tbl rkl' with
          | inr ys => inr (x :: ys)
          | inl e => inl e
          end
      | _ => inl item_error
      end
  end.

Definition regionTbl_of (ds : Dataset) : list (Z * string) :=
  zip (mask_keys ds) (mask_labels ds).

(** The copy once the loop over the variables has finished. *)
Definition masked (ds : Dataset) (rkl : list Z) : Dataset :=
  with_vars ds
    (mask_vars (filter (λ key, key ∉ rkl) (regionTbl_of ds).*1)
       (region_mask ds) (data_vars ds)).

(** The attribute value the last conditional stores and the line it prints. *)
Definition summary_of (tbl : list (Z * string)) (rkl : list Z)
    (labels : list string) : string :=
  if bool_decide (length labels < length tbl)%nat then
    if bool_decide (list_to_set rkl = inner_arctic)
    then "Inner Arctic" else join ", " labels
  else "All".

Definition report_of (tbl : list (Z * string)) (rkl : list Z)
    (labels : list string) : string :=
  if bool_decide (length labels < length tbl)%nat
  then "Regions selected: " ++ summary_of tbl rkl labels
  else all_regions_msg.

(** What [warnings.warn] adds to the console when it is reachable. *)
Definition warn_events (g : globals) (rkl : list Z) : list event :=
  if bool_decide (length rkl = 0%nat) then
    if warnings_suppressed g then [] else [Warned empty_selection_msg]
  else [].

(** ** Well-formed input *)

(** The catalogue the data model asks for: as many labels as keys, and no key
    listed twice. *)
Definition catalogue_ok (ds : Dataset) : Prop :=
  length (mask_keys ds) = length (mask_labels ds) ∧ NoDup (mask_keys ds).

(** A valid selection, as the specification has it: every element of the
    list is a key of the catalogue.  The empty list is one. *)
Definition valid_selection (ds : Dataset) (rkl : list Z) : Prop :=
  Forall (λ key, key ∈ mask_keys ds) rkl.

(** The grid of the data model: the region mask labels every cell with the
    named region it belongs to, and the names are those of the catalogue, so
    the region identifier of every cell is a catalogue key. *)
Definition region_mask_catalogued (ds : Dataset) : Prop :=
  Forall (λ r, r ∈ mask_keys ds) (region_mask ds).

(** A "true sequence" in the words of the specification: not a scalar, not a
    set, not a string. *)
Definition true_sequence (v : pyval) : bool :=
  match v with
  | PyInt _ | PyStr _ | PySet _ => false
  | PyTuple _ | PyList _ => true
  end.

(** ** The shape of a filtered dataset *)

(** [cells_kept_where keep ds ds']: every data variable of [ds] other than
    the concentration is present in [ds'] with the same shape, and a cell's
    value in [ds'] is its value in [ds] when [keep] holds of the cell's
    region identifier, the sentinel when it does not. *)
Definition cells_kept_where (keep : Z → bool) (ds ds' : Dataset) : Prop :=
  ∀ var vals,
    var ≠ conc → data_vars ds !! var = Some vals →
    ∃ vals',
      data_vars ds' !! var = Some vals' ∧
      length vals' = length vals ∧
      ∀ t row,
        vals !! t = Some row →
        ∃ row',
          vals' !! t = Some row' ∧
          length row' = length row ∧
          ∀ i c r,
            row !! i = Some c → region_mask ds !! i = Some r →
            row' !! i = Some (if keep r then c else NaN).

(** ** Sessions to evaluate the function on *)

(** Two catalogued regions, three grid cells (the second one carries a region
    identifier that the catalogue does not list), one time step. *)
Definition two_seas : Dataset :=
  {| data_vars := <["ice_thickness" := [[Num 1; Num 2; Num 3]]]>
                    (<[conc := [[Num 7; Num 8; Num 9]]]> ∅);
     region_mask := [13; 99; 10];
     mask_keys := [10; 13];
     mask_labels := ["Laptev Sea"; "Beaufort Sea"];
     attrs := ∅ |}.

Definition session : state :=
  {| heap := <[1%positive := two_seas]> ∅; console := [] |}.

(** The same two regions on a grid of the data model: every cell lies in
    one of them. *)
Definition beaufort_laptev : Dataset :=
  {| data_vars := <["ice_thickness" := [[Num 1; Num 2; Num 3]]]>
                    (<[conc := [[Num 7; Num 8; Num 9]]]> ∅);
     region_mask := [13; 10; 13];
     mask_keys := [10; 13];
     mask_labels := ["Laptev Sea"; "Beaufort Sea"];
     attrs := ∅ |}.

Definition beaufort_laptev_session : state :=
  {| heap := <[1%positive := beaufort_laptev]> ∅; console := [] |}.

(** A catalogue of seven regions, the five of the Inner Arctic among them. *)
Definition seven_seas : Dataset :=
  {| data_vars := <["ice_thickness" := [[Num 1; Num 2; Num 3]]]> ∅;
     region_mask := [13; 15; 9];
     mask_keys := [8; 9; 10; 11; 12; 13; 15];
     mask_labels := ["Barents Sea"; "Kara Sea"; "Laptev Sea"; "East Siberian Sea";
                     "Chukchi Sea"; "Beaufort Sea"; "Arctic Ocean"];
     attrs := ∅ |}.

Definition seven_seas_session : state :=
  {| heap := <[1%positive := seven_seas]> ∅; console := [] |}.

(** The three cases of the summary on a catalogue with the Inner Arctic
    keys. *)
Definition arctic : Dataset :=
  {| data_vars := <["ice_thickness" := [[Num 1; Num 2; Num 3]]]> ∅;
     region_mask := [13; 15; 9];
     mask_keys := [9; 10; 11; 12; 13; 15];
     mask_labels := ["Kara Sea"; "Laptev Sea"; "East Siberian Sea";
                     "Chukchi Sea"; "Beaufort Sea"; "Arctic Ocean"];
     attrs := ∅ |}.

Definition summary_at (rkl : list Z) : option string :=
  let r := restrictRegionally mapping_env 1%positive (PyList rkl)
             {| heap := <[1%positive := arctic]> ∅; console := [] |} in
  match r.1 with
  | inr new => ds' ← heap r.2 !! new; attrs ds' !! "regions with data"
  | inl _ => None
  end.

(** A catalogue that lists the key 13 twice. *)
Definition listed_twice : Dataset :=
  {| data_vars := <["ice_thickness" := [[Num 1]]]> ∅;
     region_mask := [13];
     mask_keys := [13; 10; 13];
     mask_labels := ["Beaufort Sea"; "Laptev Sea"; "Beaufort"];
     attrs := ∅ |}.

Definition listed_twice_session : state :=
  {| heap := <[1%positive := listed_twice]> ∅; console := [] |}.

(** * The map functions of [mapping.ipynb] *)

(** [plotWinterMaps] hands arrays to the plotting library.  What is embedded
    is everything the function computes itself: which panels it draws and in
    which order, the arrays it prepares for each drawing call, the ticks of
    the colour bar, and the exceptions of its own indexing.  The calls into
    the plotting library are recorded as events with the arrays they are
    given.  [plotOneMonth] prepares its contours and its default ticks with
    the same statements. *)

(** ** Coordinates and masked arrays *)

(** A coordinate value (a longitude or a latitude) stored in double
    precision: the sentinel or a finite number, identified with the rational
    it denotes.  A comparison of a finite double with the double nearest to a
    decimal literal agrees with the comparison of the two rationals as long as
    no double lies between the literal and its nearest double, which is the
    case for the two literals compared with below; every comparison with the
    sentinel is false. *)
Inductive float : Type :=
  | FNaN
  | FNum (q : Q).

(** [x > value] and [x < value] on one element. *)
Definition float_greater (x : float) (value : Q) : bool :=
  match x with
  | FNaN => false
  | FNum q => negb (Qle_bool q value)
  end.

Definition float_less (x : float) (value : Q) : bool :=
  match x with
  | FNaN => false
  | FNum q => negb (Qle_bool value q)
  end.

(** A numpy masked array, flattened: the data and, cell by cell, whether the
    cell is masked (left out of what is drawn). *)
Record MaskedArray (A : Type) : Type := {
  ma_data : list A;
  ma_mask : list bool
}.
Arguments ma_data {A} _.
Arguments ma_mask {A} _.

(** [ma.masked_greater(x, value)] and [ma.masked_less(x, value)]. *)
Definition masked_greater (x : list float) (value : Q) : MaskedArray float :=
  {| ma_data := x; ma_mask := (λ v, float_greater v value) <$> x |}.

Definition masked_less (x : list float) (value : Q) : MaskedArray float :=
  {| ma_data := x; ma_mask := (λ v, float_less v value) <$> x |}.

(** [ma.MaskedArray(data, mask = mask)].  The data are another field of the
    grid the mask was computed on, so the two have the same shape. *)
Definition MaskedArray_new {A : Type} (data : list A) (mask : list bool) :
    MaskedArray A :=
  {| ma_data := data; ma_mask := mask |}.

(** A cell takes part in what is drawn when its mask entry is [False]. *)
Definition unmasked {A : Type} (m : MaskedArray A) (i : nat) : Prop :=
  ma_mask m !! i = Some false.

(** The two halves of the grid either side of the seam, as both map functions
    build them. *)
Definition lonGreater (lon : list float) : MaskedArray float :=
  masked_greater lon (-(1#100))%Q.

Definition lonLesser (lon : list float) : MaskedArray float :=
  masked_less lon 0%Q.

Definition latGreater (lon lat : list float) : MaskedArray float :=
  MaskedArray_new lat (ma_mask (lonGreater lon)).

Definition latLesser (lon lat : list float) : MaskedArray float :=
  MaskedArray_new lat (ma_mask (lonLesser lon)).

Definition dataGreater (lon : list float) (data : list cell) : MaskedArray cell :=
  MaskedArray_new data (ma_mask (lonGreater lon)).

Definition dataLesser (lon : list float) (data : list cell) : MaskedArray cell :=
  MaskedArray_new data (ma_mask (lonLesser lon)).

(** ** The arrays of one panel *)

Inductive plot_exn : Type :=
  | PlotKeyError (key : string)
  | IndexError (msg : string)
  | UnboundLocalError (msg : string).

(** [dataset[var]] on a dataset value. *)
Definition getvar (ds : Dataset) (var : string) : plot_exn + DataArray :=
  match data_vars ds !! var with
  | Some v => inr {| values := v; coord_region_mask := region_mask ds |}
  | None => inl (PlotKeyError var)
  end.

(** [array.isel(time = i)]. *)
Definition isel (a : DataArray) (i : nat) : plot_exn + list cell :=
  match values a !! i with
  | Some row => inr row
  | None =>
      inl (IndexError ("index " ++ pretty i ++ " is out of bounds for axis 0 with size "
                       ++ pretty (length (values a))))
  end.

(** [dataset['seaice_conc_monthly_cdr'].where(dataset['region_mask'] != 21)
    .isel(time = i)]: the concentration the ice edge is contoured from, with
    the coast (region 21) left out. *)
Definition SICarray (ds : Dataset) (i : nat) : plot_exn + list cell :=
  match getvar ds conc with
  | inl e => inl e
  | inr a => isel (where_region_mask_ne a 21) i
  end.

(** [array > 0.5], element by element.  The numbers of a variable are opaque
    codes, so what the comparison answers on a number is a parameter
    [gt_half]; on the sentinel it answers [False]. *)
Definition cell_gt_half (gt_half : Z → bool) (c : cell) : bool :=
  match c with
  | NaN => false
  | Num x => gt_half x
  end.

(** [array.where(cond)] for a condition array of the shape of [array]. *)
Definition where_cond_row (crow : list bool) (row : list cell) : list cell :=
  imap (λ (i : nat) (c : cell),
          match (crow !! i : option bool) with
          | Some b => if b then c else NaN
          | None => c
          end) row.

Definition where_cond (cond : list (list bool)) (a : DataArray) : DataArray :=
  {| values :=
       imap (λ (t : nat) (row : list cell),
               match (cond !! t : option (list bool)) with
               | Some crow => where_cond_row crow row
               | None => row
               end) (values a);
     coord_region_mask := coord_region_mask a |}.

(** [dataset['seaice_conc_monthly_cdr'] > 0.5]. *)
Definition gt_half_array (gt_half : Z → bool) (vals : list (list cell)) :
    list (list bool) :=
  (λ row : list cell, cell_gt_half gt_half <$> row) <$> vals.

(** [dataset[dataVar].where(dataset['seaice_conc_monthly_cdr'] > 0.5)
    .isel(time = i)]: the field one panel shows. *)
Definition ice_field (gt_half : Z → bool) (ds : Dataset) (dataVar : string)
    (i : nat) : plot_exn + list cell :=
  match getvar ds dataVar with
  | inl e => inl e
  | inr a =>
      match getvar ds conc with
      | inl e => inl e
      | inr c =>
          isel (where_cond (gt_half_array gt_half (values c)) a) i
      end
  end.

(** The ticks handed to the colour bar: integers, or the array numpy builds
    when an end point of the range does not fit its 64-bit integer.  That
    array is no longer one of 64-bit integers; what it holds is not
    described here. *)
Inductive tick_array : Type :=
  | IntTicks (l : list Z)
  | WideTicks (start stop : Z).

Definition int64 (z : Z) : bool := bool_decide (- 2 ^ 63 ≤ z < 2 ^ 63).

(** [np.arange(start, stop, 1)] on Python integers: the integers from [start]
    up to [stop], [stop] left out, when both end points fit the 64-bit
    integer. *)
Definition arange (start stop : Z) : tick_array :=
  if int64 start && int64 stop then IntTicks (seqZ start (stop - start))
  else WideTicks start stop.

(** [np.arange(minval, maxval + 1, 1) if cbarTicks is None else cbarTicks]. *)
Definition colorbar_ticks (minval maxval : Z) (cbarTicks : option (list Z)) :
    tick_array :=
  match cbarTicks with
  | None => arange minval (maxval + 1)
  | Some ticks => IntTicks ticks
  end.

(** ** [plotWinterMaps] *)

(** What the map functions read besides the variables: the time coordinate
    and the two coordinates of the grid. *)
Record MapDataset : Type := {
  grid : Dataset;
  time : list Z;
  longitude : list float;
  latitude : list float
}.

(** The calls into the plotting library, with what they are given. *)
Inductive draw : Type :=
  | Pcolormesh (panel : nat) (field : list cell) (vmin vmax : Z) (cmap : string)
  | Contour (panel : nat) (lon lat : MaskedArray float) (data : MaskedArray cell)
  | Features (panel : nat)
  | Title (panel : nat) (month : Z)
  | Suptitle (title : string)
  | Colorbar (im : nat) (ticks : tick_array)
  | Savefig (path : string)
  | ShowFigure.

Definition P (A : Type) : Type := list draw → (plot_exn + A) * list draw.

#[global] Instance P_ret : MRet P := λ A a figure, (inr a, figure).

#[global] Instance P_bind : MBind P := λ A B f m figure,
  match m figure with
  | (inl e, figure') => (inl e, figure')
  | (inr a, figure') => f a figure'
  end.

Definition plot_raise {A : Type} (e : plot_exn) : P A := λ figure, (inl e, figure).

Definition plot_call (d : draw) : P unit := λ figure,
  (inr (), (figure ++ [d])%list).

Definition plot_eval {A : Type} (r : plot_exn + A) : P A :=
  match r with
  | inl e => plot_raise e
  | inr a => mret a
  end.

(** [axs.flatten()[i]] on the two by three grid of axes. *)
Definition axs_flatten (i : nat) : P nat :=
  if decide (i < 6)%nat then mret i
  else plot_raise (IndexError ("index " ++ pretty i ++
                               " is out of bounds for axis 0 with size 6")).

(** The body of [for i in range(len(dataset.time))], run over the indices
    [indices]; [im] is the local variable the colour bar is drawn from,
    unbound ([None]) until a first panel is drawn. *)
Fixpoint winter_panels (gt_half : Z → bool) (md : MapDataset) (dataVar : string)
    (minval maxval : Z) (cmap : string) (indices : list nat) (im : option nat) :
    P (option nat) :=
  match indices with
  | [] => mret im
  | i :: rest =>
      ax ← axs_flatten i;
      field ← plot_eval (ice_field gt_half (grid md) dataVar i);
      plot_call (Pcolormesh ax field minval maxval cmap);;
      sic ← plot_eval (SICarray (grid md) i);
      plot_call (Contour ax (lonGreater (longitude md))
                   (latGreater (longitude md) (latitude md))
                   (dataGreater (longitude md) sic));;
      plot_call (Contour ax (lonLesser (longitude md))
                   (latLesser (longitude md) (latitude md))
                   (dataLesser (longitude md) sic));;
      plot_call (Features ax);;
      month ← plot_eval (match time md !! i with
                         | Some t => inr t
                         | None => inl (IndexError "index out of bounds")
                         end);
      plot_call (Title ax month);;
      winter_panels gt_half md dataVar minval maxval cmap rest (Some ax)
  end.

(** The function: the loop over the time steps, then the title of the figure,
    which reads [dataset[dataVar]], the colour bar made from [im] with its
    ticks, the file if a path is given, and the figure shown.  The descriptive
    attributes [long_name] and [units] that the title and the label of the
    colour bar read are taken to be present on the variable, as they are on
    those of the book's dataset; the layout calls, which are given no data,
    are left out. *)
Definition plotWinterMaps (gt_half : Z → bool) (md : MapDataset) (dataVar : string)
    (minval maxval : Z) (cbarTicks : option (list Z)) (title : string)
    (cmap : string) (figPath : option string) : P unit :=
  im ← winter_panels gt_half md dataVar minval maxval cmap
          (seq 0 (length (time md))) None;
  plot_eval (getvar (grid md) dataVar);;
  plot_call (Suptitle title);;
  im ← plot_eval (match im with
                  | Some k => inr k
                  | None => inl (UnboundLocalError
                             "local variable 'im' referenced before assignment")
                  end);
  let cbarTicks := colorbar_ticks minval maxval cbarTicks in
  plot_call (Colorbar im cbarTicks);;
  (match figPath with
   | Some path => plot_call (Savefig path)
   | None => mret ()
   end);;
  plot_call ShowFigure.

(** The panels a figure has a field drawn on, in drawing order. *)
Definition meshes (figure : list draw) : list nat :=
  omap (λ d, match d with
             | Pcolormesh panel _ _ _ _ => Some panel
             | _ => None
             end) figure.

(** The drawing calls of the loop body. *)
Definition panel_call (d : draw) : Prop :=
  match d with
  | Pcolormesh _ _ _ _ _ | Contour _ _ _ _ | Features _ | Title _ _ => True
  | _ => False
  end.

(** Every time step of the time coordinate has its row in [dataVar] and in
    the concentration, as in a dataset whose variables all have the time
    dimension. *)
Definition every_month_available (gt_half : Z → bool) (md : MapDataset)
    (dataVar : string) : Prop :=
  ∀ i, (i < length (time md))%nat →
    ∃ field sic,
      ice_field gt_half (grid md) dataVar i = inr field ∧
      SICarray (grid md) i = inr sic.

(** An index the loop body gets through: it has an axis, and the dataset has
    its rows and its month. *)
Definition drawable (gt_half : Z → bool) (md : MapDataset) (dataVar : string)
    (i : nat) : Prop :=
  (i < 6)%nat ∧
  ∃ field sic month,
    ice_field gt_half (grid md) dataVar i = inr field ∧
    SICarray (grid md) i = inr sic ∧
    time md !! i = Some month.

(** A dataset of [n] months on a grid of three cells. *)
Definition months (n : nat) : MapDataset :=
  {| grid :=
       {| data_vars :=
            <["ice_thickness" := replicate n [Num 1; Num 2; Num 3]]>
              (<[conc := replicate n [Num 7; NaN; Num 9]]> ∅);
          region_mask := [13; 21; 10];
          mask_keys := [10; 13];
          mask_labels := ["Laptev Sea"; "Beaufort Sea"];
          attrs := ∅ |};
     time := replicate n 0;
     longitude := [FNum (-(5#1000)); FNum 3; FNaN];
     latitude := [FNum 80; FNum 81; FNum 82] |}.

(** ** Tactics for the evaluations *)

(** Evaluating a closed run. *)
Ltac evaluate := vm_compute; reflexivity.

(** In the filtered [two_seas] the second cell of [ice_thickness], whose
    region identifier is 99, still holds its number; a description [Hcells]
    of the result that asks for the sentinel there is refuted. *)
Ltac second_cell_kept Hcells :=
  let vals' := fresh "vals" in
  let row' := fresh "row" in
  let Hvals' := fresh "Hvals" in
  let Hrows := fresh "Hrows" in
  let Hrow' := fresh "Hrow" in
  let Hcell := fresh "Hcell" in
  destruct (Hcells "ice_thickness" [[Num 1; Num 2; Num 3]])
    as (vals' & Hvals' & _ & Hrows); [done|reflexivity|];
  vm_compute in Hvals'; injection Hvals' as <-;
  destruct (Hrows 0%nat [Num 1; Num 2; Num 3] eq_refl)
    as (row' & Hrow' & _ & Hcell);
  injection Hrow' as <-;
  specialize (Hcell 1%nat (Num 2) 99 eq_refl eq_refl); discriminate.

(** * Reasoning about runs *)

(** ** The masking of one variable *)

Lemma where_row_lookup cond mask row i :
  where_row cond mask row !! i =
  (λ c, match mask !! i with
        | Some r => if cond r then c else NaN
        | None => c
        end) <$> row !! i.
Proof. unfold where_row. by rewrite list_lookup_imap. Qed.

Lemma where_row_length cond mask row :
  length (where_row cond mask row) = length row.
Proof. unfold where_row. by rewrite length_imap. Qed.

Lemma where_row_ext c1 c2 mask row :
  (∀ r, r ∈ mask → c1 r = c2 r) →
  where_row c1 mask row = where_row c2 mask row.
Proof.
  intros Hext. apply list_eq. intros i. rewrite !where_row_lookup.
  destruct (row !! i) as [c|]; [simpl|done].
  destruct (mask !! i) as [r|] eqn:Hr; [|done].
  by rewrite (Hext r) by (by eapply list_elem_of_lookup_2).
Qed.

Lemma where_row_compose c1 c2 mask row :
  where_row c2 mask (where_row c1 mask row) =
  where_row (λ r, c1 r && c2 r) mask row.
Proof.
  apply list_eq. intros i. rewrite !where_row_lookup.
  destruct (row !! i) as [c|]; [simpl|done].
  destruct (mask !! i) as [r|]; [|done].
  by destruct (c1 r), (c2 r).
Qed.

Lemma where_row_true mask row : where_row (λ _, true) mask row = row.
Proof.
  apply list_eq. intros i. rewrite where_row_lookup.
  destruct (row !! i) as [c|]; [simpl|done]. by destruct (mask !! i).
Qed.

Lemma DataArray_where_ext c1 c2 a :
  (∀ r, r ∈ coord_region_mask a → c1 r = c2 r) →
  DataArray_where c1 a = DataArray_where c2 a.
Proof.
  intros Hext. unfold DataArray_where. f_equal.
  apply list_fmap_ext. intros _ row _. by apply where_row_ext.
Qed.

Lemma DataArray_where_compose c1 c2 a :
  DataArray_where c2 (DataArray_where c1 a) =
  DataArray_where (λ r, c1 r && c2 r) a.
Proof.
  unfold DataArray_where. simpl. f_equal.
  rewrite <- list_fmap_compose. apply list_fmap_ext.
  intros _ row _. apply where_row_compose.
Qed.

Lemma DataArray_where_true a : DataArray_where (λ _, true) a = a.
Proof.
  destruct a as [vs mask]. unfold DataArray_where. simpl. f_equal.
  rewrite <- (list_fmap_id vs) at 2. apply list_fmap_ext.
  intros _ row _. apply where_row_true.
Qed.

(** The per-key loop is one pass with the predicate "not one of the keys". *)
Lemma foldl_where_region_mask_ne ks : ∀ a,
  foldl where_region_mask_ne a ks =
  DataArray_where (λ r, bool_decide (r ∉ ks)) a.
Proof.
  induction ks as [|k ks IH]; intros a; simpl.
  - symmetry. apply DataArray_where_true.
  - rewrite IH. unfold where_region_mask_ne. rewrite DataArray_where_compose.
    apply DataArray_where_ext. intros r _.
    rewrite <- bool_decide_and. apply bool_decide_ext.
    rewrite not_elem_of_cons. tauto.
Qed.

(** ** Runs of the primitives *)

Lemma bind_run {A B : Type} (m : M A) (f : A → M B) σ :
  (m ≫= f) σ =
  match m σ with
  | (inl e, σ') => (inl e, σ')
  | (inr a, σ') => f a σ'
  end.
Proof. reflexivity. Qed.

Lemma load_run σ d ds : heap σ !! d = Some ds → load d σ = (inr ds, σ).
Proof. intros H. unfold load. by rewrite H. Qed.

Lemma getitem_run σ d ds var v :
  heap σ !! d = Some ds → data_vars ds !! var = Some v →
  getitem d var σ =
  (inr {| values := v; coord_region_mask := region_mask ds |}, σ).
Proof.
  intros Hd Hv. unfold getitem. rewrite bind_run, (load_run _ _ _ Hd).
  by rewrite Hv.
Qed.

Lemma setitem_run σ d ds var a :
  heap σ !! d = Some ds →
  setitem d var a σ =
  (inr (), set_heap σ (<[d := with_vars ds (<[var := values a]> (data_vars ds))]> (heap σ))).
Proof.
  intros Hd. unfold setitem. by rewrite bind_run, (load_run _ _ _ Hd).
Qed.

Lemma set_attr_run σ d ds k v :
  heap σ !! d = Some ds →
  set_attr d k v σ = (inr (), set_heap σ (<[d := with_attr ds k v]> (heap σ))).
Proof.
  intros Hd. unfold set_attr. by rewrite bind_run, (load_run _ _ _ Hd).
Qed.

Lemma get_attr_run σ d ds k v :
  heap σ !! d = Some ds → attrs ds !! k = Some v →
  get_attr d k σ = (inr v, σ).
Proof.
  intros Hd Hv. unfold get_attr. rewrite bind_run, (load_run _ _ _ Hd).
  by rewrite Hv.
Qed.

Lemma fresh_heap (h : gmap positive Dataset) : h !! fresh (dom h) = None.
Proof. apply not_elem_of_dom. apply is_fresh. Qed.

Lemma with_vars_id ds : with_vars ds (data_vars ds) = ds.
Proof. by destruct ds. Qed.

Lemma set_heap_id σ : set_heap σ (heap σ) = σ.
Proof. by destruct σ. Qed.

(** ** The loop over the data variables *)

Lemma mask_loop_where ks mask v :
  mask_loop ks mask v = where_row (λ r, bool_decide (r ∉ ks)) mask <$> v.
Proof. unfold mask_loop. by rewrite foldl_where_region_mask_ne. Qed.

Lemma mask_loop_idemp ks mask v :
  mask_loop ks mask (mask_loop ks mask v) = mask_loop ks mask v.
Proof.
  rewrite !mask_loop_where, <- list_fmap_compose. apply list_fmap_ext.
  intros _ row _. simpl. rewrite where_row_compose.
  apply where_row_ext. intros r _. by destruct (bool_decide (r ∉ ks)).
Qed.

Lemma mask_step_dom ks mask m var x :
  is_Some (mask_step ks mask m var !! x) ↔ is_Some (m !! x).
Proof.
  unfold mask_step. case_bool_decide; [|done].
  destruct (m !! var) as [v|] eqn:Hv; [|done].
  destruct (decide (var = x)) as [->|Hne].
  - rewrite lookup_insert_eq, Hv. split; eauto.
  - by rewrite lookup_insert_ne.
Qed.

(** The outer loop, run on a copy [d] stored at [new] whose variables include
    all the names: it raises nothing and leaves at [new] the copy with its
    variables taken through [mask_step], name after name. *)
Lemma mask_vars_loop ks new names : ∀ σ d,
  heap σ !! new = Some d →
  Forall (λ var, is_Some (data_vars d !! var)) names →
  for_each names (λ var,
    if bool_decide (var ≠ conc) then
      regionalVar ← getitem new var;
      setitem new var (foldl where_region_mask_ne regionalVar ks)
    else mret ()) σ =
  (inr (), set_heap σ
     (<[new := with_vars d (foldl (mask_step ks (region_mask d)) (data_vars d) names)]>
        (heap σ))).
Proof.
  induction names as [|var names IH]; intros σ d Hd Hall.
  - simpl. rewrite with_vars_id, (insert_id _ _ _ Hd), set_heap_id. done.
  - apply Forall_cons in Hall as [[v Hv] Hall].
    cbn [for_each foldl]. rewrite bind_run.
    unfold mask_step at 2. case_bool_decide as Hvar.
    + rewrite bind_run, (getitem_run _ _ _ _ _ Hd Hv).
      rewrite (setitem_run _ _ _ _ _ Hd), Hv.
      set (d' := with_vars d _). set (σ' := set_heap σ _).
      rewrite (IH σ' d').
      * unfold σ', set_heap. simpl. by rewrite insert_insert_eq.
      * unfold σ'. simpl. by rewrite lookup_insert_eq.
      * eapply Forall_impl; [exact Hall|]. intros x Hx. unfold d'. simpl.
        destruct (decide (var = x)) as [->|Hne].
        -- rewrite lookup_insert_eq. eauto.
        -- by rewrite lookup_insert_ne.
    + change ((mret () : M ()) σ) with (@inr exn unit (), σ). cbv beta iota.
      by apply IH.
Qed.

(** Each name is met once, so a variable is masked once if it is one of the
    names and is not the concentration, and is left alone otherwise. *)
Lemma lookup_foldl_mask_step ks mask names : ∀ m x,
  NoDup names →
  foldl (mask_step ks mask) m names !! x =
  if bool_decide (x ∈ names ∧ x ≠ conc)
  then mask_loop ks mask <$> m !! x else m !! x.
Proof.
  induction names as [|var names IH]; intros m x Hnd.
  - cbn [foldl]. rewrite bool_decide_eq_false_2; [done|].
    intros [H _]. by apply not_elem_of_nil in H.
  - apply NoDup_cons in Hnd as [Hnotin Hnd]. cbn [foldl]. rewrite IH by done.
    destruct (decide (x = var)) as [->|Hne].
    + rewrite (bool_decide_eq_false_2 (var ∈ names ∧ _)) by tauto.
      unfold mask_step. case_bool_decide as Hvar.
      * rewrite bool_decide_eq_true_2 by (split; [left|done]).
        destruct (m !! var) as [v|] eqn:Hv; [|by rewrite Hv].
        by rewrite lookup_insert_eq.
      * rewrite bool_decide_eq_false_2; [done|]. tauto.
    + assert (mask_step ks mask m var !! x = m !! x) as ->.
      { unfold mask_step. case_bool_decide; [|done].
        destruct (m !! var); [|done]. by rewrite lookup_insert_ne. }
      apply (f_equal (λ b : bool, if b then _ else _)).
      apply bool_decide_ext. rewrite elem_of_cons. tauto.
Qed.

Lemma foldl_mask_step_all ks mask m :
  foldl (mask_step ks mask) m (map_to_list m).*1 = mask_vars ks mask m.
Proof.
  apply map_eq. intros x.
  rewrite lookup_foldl_mask_step by apply NoDup_fst_map_to_list.
  unfold mask_vars. rewrite map_lookup_imap.
  destruct (m !! x) as [v|] eqn:Hv; simpl.
  - case_bool_decide as H1; case_bool_decide as H2; try done.
    + tauto.
    + exfalso. apply H1. split; [|done].
      apply list_elem_of_fmap. exists (x, v). split; [done|].
      by apply elem_of_map_to_list.
  - by case_bool_decide.
Qed.

(** ** Validation *)

Lemma check_loop_run (keys l : list Z) σ :
  for_each l (λ key,
    if bool_decide (key ∉ keys)
    then raise (ValueError (unknown_key_msg key))
    else mret ()) σ =
  match head (filter (λ key, key ∉ keys) l) with
  | Some key => (inl (ValueError (unknown_key_msg key)), σ)
  | None => (inr (), σ)
  end.
Proof.
  induction l as [|key l IH]; [done|].
  cbn [for_each]. rewrite bind_run, filter_cons.
  destruct (decide (key ∉ keys)) as [Hk|Hk].
  - by rewrite bool_decide_eq_true_2.
  - rewrite bool_decide_eq_false_2 by done. exact IH.
Qed.

(** Validation as one case distinction: the type test, then the first
    element that is no catalogue key, then the warning for the empty list. *)
Lemma checkKeys_run g v tbl σ :
  checkKeys g v tbl σ =
  if is_list v then
    match head (filter (λ key, key ∉ tbl.*1) (elements v)) with
    | Some key => (inl (ValueError (unknown_key_msg key)), σ)
    | None =>
        if bool_decide (length (elements v) = 0%nat)
        then warnings_warn g empty_selection_msg σ
        else (inr (), σ)
    end
  else (inl (ValueError not_a_list_msg), σ).
Proof.
  unfold checkKeys. rewrite bind_run.
  destruct (is_list v); [|done].
  change ((mret () : M ()) σ) with (@inr exn unit (), σ). cbv beta iota.
  rewrite bind_run, check_loop_run.
  destruct (head _); [done|]. by case_bool_decide.
Qed.

Lemma filter_nil_Forall {A : Type} (P : A → Prop) `{!∀ x, Decision (P x)}
    (l : list A) :
  Forall (λ x, ¬ P x) l → filter P l = [].
Proof.
  intros Hall. induction Hall as [|x l' Hx _ IH]; [done|].
  by rewrite filter_cons_False.
Qed.

Lemma head_filter_None (P : Z → Prop) `{!∀ x, Decision (P x)} (l : list Z) :
  head (filter P l) = None ↔ Forall (λ x, ¬ P x) l.
Proof.
  rewrite head_None. split.
  - intros Hnil. apply Forall_forall. intros x Hx HP.
    assert (x ∈ filter P l) as Hin by (by apply list_elem_of_filter).
    rewrite Hnil in Hin. by apply not_elem_of_nil in Hin.
  - apply filter_nil_Forall.
Qed.

Lemma head_filter_Some (P : Z → Prop) `{!∀ x, Decision (P x)} (l : list Z) x :
  head (filter P l) = Some x → x ∈ l ∧ P x.
Proof.
  intros Hhd. assert (x ∈ filter P l) as Hin.
  { destruct (filter P l); [done|]. injection Hhd as ->. left. }
  apply list_elem_of_filter in Hin. tauto.
Qed.

(** Validation touches neither the store nor, unless it warns, the console. *)
Lemma checkKeys_heap g v tbl σ :
  heap (checkKeys g v tbl σ).2 = heap σ.
Proof.
  rewrite checkKeys_run. destruct (is_list v); [|done].
  destruct (head _); [done|]. case_bool_decide; [|done].
  unfold warnings_warn. by destruct (warnings_imported g), (warnings_suppressed g).
Qed.

Lemma checkKeys_raise g v tbl σ e :
  (checkKeys g v tbl σ).1 = inl e → (checkKeys g v tbl σ).2 = σ.
Proof.
  rewrite checkKeys_run. destruct (is_list v); [|done].
  destruct (head _); [done|]. case_bool_decide; [|done].
  unfold warnings_warn. by destruct (warnings_imported g), (warnings_suppressed g).
Qed.

(** ** The labels *)

Lemma labels_run tbl rkl σ :
  comprehension (λ key, item (filter (λ row, row.1 = key) tbl).*2) rkl σ =
  (labels_of tbl rkl, σ).
Proof.
  induction rkl as [|key rkl IH]; [done|].
  cbn [comprehension labels_of]. rewrite bind_run.
  destruct ((filter (λ row, row.1 = key) tbl).*2) as [|x [|y s]]; try done.
  simpl. rewrite bind_run, IH. by destruct (labels_of tbl rkl).
Qed.

Lemma labels_of_length tbl rkl labels :
  labels_of tbl rkl = inr labels → length labels = length rkl.
Proof.
  revert labels. induction rkl as [|key rkl IH]; intros labels; simpl.
  - by intros [= <-].
  - destruct ((filter (λ row, row.1 = key) tbl).*2) as [|x [|y s]]; try done.
    destruct (labels_of tbl rkl) as [e|ys]; [done|].
    intros [= <-]. simpl. f_equal. by apply IH.
Qed.

(** ** A whole run *)

(** The body of the function, on a store that holds the dataset and a
    catalogue whose two columns have the same length: the outcome of
    validation, then the copy at a fresh reference with its variables
    masked, then the labels (the only later statement that can raise), then
    the summary attribute and the printed line. *)
Lemma restrictRegionally_run g dataset v σ ds :
  heap σ !! dataset = Some ds →
  length (mask_keys ds) = length (mask_labels ds) →
  restrictRegionally g dataset v σ =
  match checkKeys g v (regionTbl_of ds) σ with
  | (inl e, σ1) => (inl e, σ1)
  | (inr _, σ1) =>
      let new := fresh (dom (heap σ)) in
      match labels_of (regionTbl_of ds) (elements v) with
      | inl e =>
          (inl e, {| heap := <[new := masked ds (elements v)]> (heap σ);
                     console := console σ1 |})
      | inr labels =>
          (inr new,
           {| heap := <[new := with_attr (masked ds (elements v)) "regions with data"
                                 (summary_of (regionTbl_of ds) (elements v) labels)]>
                        (heap σ);
              console := console σ1 ++
                [Printed (report_of (regionTbl_of ds) (elements v) labels)] |})
      end
  end.
Proof.
  intros Hd Hlen. unfold restrictRegionally.
  rewrite bind_run, (load_run _ _ _ Hd). cbv beta iota.
  rewrite bind_run. unfold DataFrame. rewrite decide_True by done.
  change ((mret (zip (mask_keys ds) (mask_labels ds)) : M _) σ)
    with (@inr exn _ (regionTbl_of ds), σ). cbv beta iota.
  rewrite bind_run.
  pose proof (checkKeys_heap g v (regionTbl_of ds) σ) as Hheap.
  destruct (checkKeys g v (regionTbl_of ds) σ) as [[e|[]] σ1]; [done|].
  simpl in Hheap. cbv zeta.
  assert (heap σ1 !! dataset = Some ds) as Hd1 by (by rewrite Hheap).
  rewrite bind_run. unfold Dataset_copy.
  rewrite bind_run, (load_run _ _ _ Hd1). unfold alloc. cbv beta iota zeta.
  rewrite Hheap. set (new := fresh (dom (heap σ))).
  assert (heap σ !! new = None) as Hnew by apply fresh_heap.
  assert (new ≠ dataset) as Hne by congruence.
  set (σ2 := {| heap := <[new := ds]> (heap σ); console := console σ1 |}).
  assert (heap σ2 !! dataset = Some ds) as Hd2.
  { unfold σ2. simpl. by rewrite lookup_insert_ne. }
  assert (heap σ2 !! new = Some ds) as Hnew2.
  { unfold σ2. simpl. by rewrite lookup_insert_eq. }
  rewrite bind_run. unfold data_var_names.
  rewrite bind_run, (load_run _ _ _ Hd2). cbv beta iota.
  change ((mret (map_to_list (data_vars ds)).*1 : M _) σ2)
    with (@inr exn _ (map_to_list (data_vars ds)).*1, σ2). cbv beta iota.
  rewrite bind_run.
  rewrite (mask_vars_loop _ new _ σ2 ds Hnew2).
  2:{ apply Forall_forall. intros x Hx.
      apply list_elem_of_fmap in Hx as [[x' vx] [-> Hx]].
      apply elem_of_map_to_list in Hx. simpl. eauto. }
  rewrite foldl_mask_step_all. fold (regionTbl_of ds).
  change (with_vars ds (mask_vars _ _ _)) with (masked ds (elements v)).
  unfold σ2 at 1 2. unfold set_heap. simpl heap. simpl console.
  rewrite insert_insert_eq.
  rewrite bind_run, labels_run.
  destruct (labels_of (regionTbl_of ds) (elements v)) as [e|labels]; [done|].
  set (d1 := masked ds (elements v)).
  set (σ3 := {| heap := <[new := d1]> (heap σ); console := console σ1 |}).
  assert (heap σ3 !! new = Some d1) as Hnew3.
  { unfold σ3. simpl. by rewrite lookup_insert_eq. }
  rewrite bind_run. unfold report_of, summary_of.
  case_bool_decide as Hlt.
  - rewrite bind_run.
    assert (∀ s, set_attr new "regions with data" s σ3 =
      (inr (), {| heap := <[new := with_attr d1 "regions with data" s]> (heap σ);
                  console := console σ1 |})) as Hset.
    { intros s. rewrite (set_attr_run _ _ _ _ _ Hnew3). unfold set_heap, σ3.
      simpl. by rewrite insert_insert_eq. }
    assert (∀ s, (s' ← get_attr new "regions with data";
                  print ("Regions selected: " ++ s'))
        {| heap := <[new := with_attr d1 "regions with data" s]> (heap σ);
           console := console σ1 |} =
      (inr (), {| heap := <[new := with_attr d1 "regions with data" s]> (heap σ);
                  console := console σ1 ++ [Printed ("Regions selected: " ++ s)] |}))
      as Hget.
    { intros s. rewrite bind_run.
      erewrite get_attr_run; [done| |].
      - simpl. apply lookup_insert_eq.
      - simpl. apply lookup_insert_eq. }
    case_bool_decide.
    + rewrite Hset. cbv beta iota. by rewrite Hget.
    + rewrite Hset. cbv beta iota. by rewrite Hget.
  - rewrite bind_run, (set_attr_run _ _ _ _ _ Hnew3).
    unfold set_heap, σ3. simpl. by rewrite insert_insert_eq.
Qed.

(** The two ways to fail before validation. *)
Lemma restrictRegionally_unbound g dataset v σ :
  heap σ !! dataset = None →
  restrictRegionally g dataset v σ =
  (inl (NameError "name 'dataset' is not defined"), σ).
Proof.
  intros Hd. unfold restrictRegionally. rewrite bind_run. unfold load.
  by rewrite Hd.
Qed.

Lemma restrictRegionally_ragged g dataset v σ ds :
  heap σ !! dataset = Some ds →
  length (mask_keys ds) ≠ length (mask_labels ds) →
  restrictRegionally g dataset v σ =
  (inl (ValueError "arrays must all be same length"), σ).
Proof.
  intros Hd Hlen. unfold restrictRegionally.
  rewrite bind_run, (load_run _ _ _ Hd). cbv beta iota.
  rewrite bind_run. unfold DataFrame. by rewrite decide_False.
Qed.

(** ** Valid selections *)

Lemma regionTbl_keys ds :
  length (mask_keys ds) = length (mask_labels ds) →
  (regionTbl_of ds).*1 = mask_keys ds.
Proof. intros Hlen. unfold regionTbl_of. apply fst_zip. lia. Qed.

Lemma regionTbl_length ds :
  length (mask_keys ds) = length (mask_labels ds) →
  length (regionTbl_of ds) = length (mask_keys ds).
Proof. intros Hlen. unfold regionTbl_of. rewrite length_zip. lia. Qed.

Lemma checkKeys_valid g rkl tbl σ :
  Forall (λ key, key ∈ tbl.*1) rkl →
  (rkl = [] → warnings_imported g = true) →
  checkKeys g (PyList rkl) tbl σ =
  (inr (), {| heap := heap σ; console := console σ ++ warn_events g rkl |}).
Proof.
  intros Hall Hw. rewrite checkKeys_run. simpl.
  assert (head (filter (λ key, key ∉ tbl.*1) rkl) = None) as ->.
  { apply head_filter_None. eapply Forall_impl; [exact Hall|].
    intros key Hin Hnot. by apply Hnot. }
  unfold warn_events. case_bool_decide as Hnil.
  - apply nil_length_inv in Hnil. unfold warnings_warn. rewrite (Hw Hnil).
    destruct (warnings_suppressed g).
    + destruct σ. simpl. by rewrite app_nil_r.
    + done.
  - destruct σ. simpl. by rewrite app_nil_r.
Qed.

(** Validation passes on a list exactly when the list is a valid selection
    and, should it be empty, [warnings.warn] can be run. *)
Lemma checkKeys_passes_iff g ds rkl σ :
  length (mask_keys ds) = length (mask_labels ds) →
  valid_selection ds rkl ∧ (rkl = [] → warnings_imported g = true) ↔
  (checkKeys g (PyList rkl) (regionTbl_of ds) σ).1 = inr ().
Proof.
  intros Hlen. split.
  - intros [Hall Hw]. rewrite checkKeys_valid; [done| |done].
    unfold valid_selection in Hall. by rewrite regionTbl_keys.
  - rewrite checkKeys_run, regionTbl_keys by done. simpl.
    destruct (head _) as [key|] eqn:Hhead; [done|].
    apply head_filter_None in Hhead. intros Hpass. split.
    + eapply Forall_impl; [exact Hhead|]. intros key Hkey. simpl in Hkey.
      by destruct (decide (key ∈ mask_keys ds)).
    + intros ->. simpl in Hpass. unfold warnings_warn in Hpass.
      by destruct (warnings_imported g).
Qed.

Lemma filter_key_singleton (tbl : list (Z * string)) key x :
  NoDup tbl.*1 → (key, x) ∈ tbl →
  filter (λ row, row.1 = key) tbl = [(key, x)].
Proof.
  induction tbl as [|[k s] tbl IH]; intros Hnd Hin.
  - by apply not_elem_of_nil in Hin.
  - simpl in Hnd. apply NoDup_cons in Hnd as [Hk Hnd].
    apply elem_of_cons in Hin as [Heq|Hin].
    + injection Heq as <- <-. rewrite filter_cons_True by done. f_equal.
      apply filter_nil_Forall. apply Forall_forall.
      intros [k' s'] Hin' Hk'. simpl in Hk'.
      subst k'. apply Hk. apply list_elem_of_fmap. by exists (key, s').
    + rewrite filter_cons_False; [by apply IH|].
      simpl. intros ->. apply Hk. apply list_elem_of_fmap. by exists (key, x).
Qed.

Lemma labels_of_valid tbl rkl :
  NoDup tbl.*1 → Forall (λ key, key ∈ tbl.*1) rkl →
  ∃ labels, labels_of tbl rkl = inr labels.
Proof.
  intros Hnd Hall. induction Hall as [|key rkl Hkey _ [labels IH]].
  - by exists [].
  - apply list_elem_of_fmap in Hkey as [[k x] [-> Hin]]. simpl in *.
    rewrite (filter_key_singleton _ _ _ Hnd Hin), IH. simpl. eauto.
Qed.

(** Every label the comprehension collects sits in the catalogue row of its
    key, position by position. *)
Lemma labels_of_rows tbl rkl labels :
  labels_of tbl rkl = inr labels →
  Forall2 (λ key label, (key, label) ∈ tbl) rkl labels.
Proof.
  revert labels. induction rkl as [|key rkl IH]; intros labels; simpl.
  - intros [= <-]. constructor.
  - destruct ((filter (λ row, row.1 = key) tbl).*2) as [|x [|y s]] eqn:Hf;
      try done.
    destruct (labels_of tbl rkl) as [e|ys]; [done|].
    intros [= <-]. constructor; [|by apply IH].
    assert (x ∈ (filter (λ row, row.1 = key) tbl).*2) as Hx
      by (rewrite Hf; left).
    apply list_elem_of_fmap in Hx as [[k x'] [-> Hin]].
    apply list_elem_of_filter in Hin as [Hk Hin]. simpl in *. by subst k.
Qed.

(** A valid selection over a well-formed catalogue: the call returns, and
    this is the state it leaves.  The one valid selection for which a session
    matters is the empty list, which needs [warnings]. *)
Lemma restrictRegionally_valid g dataset rkl σ ds :
  heap σ !! dataset = Some ds →
  catalogue_ok ds →
  valid_selection ds rkl →
  (rkl = [] → warnings_imported g = true) →
  ∃ labels,
    labels_of (regionTbl_of ds) rkl = inr labels ∧
    restrictRegionally g dataset (PyList rkl) σ =
    (inr (fresh (dom (heap σ))),
     {| heap := <[fresh (dom (heap σ)) :=
                   with_attr (masked ds rkl) "regions with data"
                     (summary_of (regionTbl_of ds) rkl labels)]> (heap σ);
        console := (console σ ++ warn_events g rkl) ++
                   [Printed (report_of (regionTbl_of ds) rkl labels)] |}).
Proof.
  intros Hd [Hlen Hnd] Hall Hw. unfold valid_selection in Hall.
  destruct (labels_of_valid (regionTbl_of ds) rkl) as [labels Hl].
  { by rewrite regionTbl_keys. }
  { by rewrite regionTbl_keys. }
  exists labels. split; [done|].
  rewrite (restrictRegionally_run _ _ _ _ _ Hd Hlen).
  rewrite checkKeys_valid; [|by rewrite regionTbl_keys|done].
  simpl. by rewrite Hl.
Qed.

(** * Properties of [restrictRegionally] *)

(** ** What a filtered dataset looks like, cell by cell *)

Lemma masked_cells ds rkl ds' :
  length (mask_keys ds) = length (mask_labels ds) →
  data_vars ds' = data_vars (masked ds rkl) →
  cells_kept_where (λ r, bool_decide (r ∈ rkl ∨ r ∉ mask_keys ds)) ds ds'.
Proof.
  intros Hlen Hvars var vals Hvar Hvals.
  rewrite Hvars. unfold masked, mask_vars. simpl.
  rewrite map_lookup_imap, Hvals. simpl.
  rewrite bool_decide_eq_true_2 by done. rewrite mask_loop_where.
  eexists. split; [done|]. split; [by rewrite length_fmap|].
  intros t row Hrow. rewrite list_lookup_fmap, Hrow. simpl.
  eexists. split; [done|]. split; [by rewrite where_row_length|].
  intros i c r Hc Hr. rewrite where_row_lookup, Hc, Hr. simpl.
  rewrite regionTbl_keys by done. f_equal.
  apply (f_equal (λ b : bool, if b then _ else _)). apply bool_decide_ext.
  rewrite list_elem_of_filter.
  destruct (decide (r ∈ rkl)), (decide (r ∈ mask_keys ds)); tauto.
Qed.

Lemma masked_conc ds rkl :
  data_vars (masked ds rkl) !! conc = data_vars ds !! conc.
Proof.
  unfold masked, mask_vars. simpl. rewrite map_lookup_imap.
  destruct (data_vars ds !! conc) as [v|]; [|done].
  change (Some (if bool_decide (conc ≠ conc) then mask_loop
            (filter (λ key, key ∉ rkl) (regionTbl_of ds).*1) (region_mask ds) v
          else v) = Some v).
  by rewrite bool_decide_eq_false_2 by (intros H; by apply H).
Qed.

(** ** A first evaluation *)

Example beaufort_only :
  ∃ σ' ds',
    restrictRegionally mapping_env 1%positive (PyList [13]) session
      = (inr 2%positive, σ') ∧
    heap σ' !! 2%positive = Some ds' ∧
    data_vars ds' !! "ice_thickness" = Some [[Num 1; Num 2; NaN]] ∧
    data_vars ds' !! conc = Some [[Num 7; Num 8; Num 9]] ∧
    attrs ds' !! "regions with data" = Some "Beaufort Sea" ∧
    console σ' = [Printed "Regions selected: Beaufort Sea"].
Proof. eexists _, _. repeat split; evaluate. Qed.

(** ** What a returning run has done *)

(** Conversely, a call that returns was given a list that passed validation
    and whose labels were all found, and it leaves the same state. *)
Lemma restrictRegionally_returns_inv g dataset v σ new σ' :
  restrictRegionally g dataset v σ = (inr new, σ') →
  ∃ ds rkl labels σ1,
    heap σ !! dataset = Some ds ∧
    length (mask_keys ds) = length (mask_labels ds) ∧
    v = PyList rkl ∧
    checkKeys g v (regionTbl_of ds) σ = (inr (), σ1) ∧
    labels_of (regionTbl_of ds) rkl = inr labels ∧
    new = fresh (dom (heap σ)) ∧
    σ' = {| heap := <[new := with_attr (masked ds rkl) "regions with data"
                               (summary_of (regionTbl_of ds) rkl labels)]> (heap σ);
            console := console σ1 ++
                       [Printed (report_of (regionTbl_of ds) rkl labels)] |}.
Proof.
  intros Hrun.
  destruct (heap σ !! dataset) as [ds|] eqn:Hd.
  2:{ by rewrite restrictRegionally_unbound in Hrun. }
  destruct (decide (length (mask_keys ds) = length (mask_labels ds))) as [Hlen|Hlen].
  2:{ by rewrite (restrictRegionally_ragged _ _ _ _ _ Hd Hlen) in Hrun. }
  rewrite (restrictRegionally_run _ _ _ _ _ Hd Hlen) in Hrun.
  destruct (checkKeys g v (regionTbl_of ds) σ) as [[e|[]] σ1] eqn:Hck; [done|].
  assert (is_list v = true) as Hlist.
  { rewrite checkKeys_run in Hck. by destruct (is_list v). }
  destruct v as [| | | |rkl]; try done. simpl in Hrun.
  destruct (labels_of (regionTbl_of ds) rkl) as [e|labels] eqn:Hl; [done|].
  injection Hrun as <- <-. by exists ds, rkl, labels, σ1.
Qed.

(** ** C1: which cells are kept *)

(** Whatever the grid, the cells a call blanks are those of the catalogued
    regions that the list leaves out. *)
Lemma restrictRegionally_masks_unselected_regions g dataset rkl σ ds new σ' :
  heap σ !! dataset = Some ds →
  restrictRegionally g dataset (PyList rkl) σ = (inr new, σ') →
  ∃ ds',
    heap σ' !! new = Some ds' ∧
    cells_kept_where (λ r, bool_decide (r ∈ rkl ∨ r ∉ mask_keys ds)) ds ds'.
Proof.
  intros Hd Hrun.
  apply restrictRegionally_returns_inv in Hrun
    as (ds0 & rkl0 & labels & σ1 & Hd0 & Hlen & [= <-] & _ & _ & -> & ->).
  assert (ds0 = ds) as -> by congruence.
  eexists. split; [simpl; apply lookup_insert_eq|].
  by apply masked_cells.
Qed.



Example beaufort_on_catalogued_grid :
  ∃ σ' ds',
    restrictRegionally mapping_env 1%positive (PyList [13]) beaufort_laptev_session
      = (inr 2%positive, σ') ∧
    heap σ' !! 2%positive = Some ds' ∧
    data_vars ds' !! "ice_thickness" = Some [[Num 1; NaN; Num 3]].
Proof. eexists _, _. repeat split; evaluate. Qed.

(** Outside the data model.  With a region identifier on the grid that the
    catalogue does not list (99 below), the loop, which goes through the
    catalogue keys only, never meets it: the cell keeps its number whatever
    the selection. *)
Example restrictRegionally_keeps_uncatalogued_cell :
  ∃ σ' ds',
    restrictRegionally mapping_env 1%positive (PyList [13]) session
      = (inr 2%positive, σ') ∧
    heap σ' !! 2%positive = Some ds' ∧
    ¬ region_mask_catalogued two_seas ∧
    ¬ cells_kept_where (λ r, bool_decide (r ∈ [13])) two_seas ds'.
Proof.
  eexists _, _. split; [evaluate|].
  split; [evaluate|]. split.
  - unfold region_mask_catalogued. intros Hgrid. simpl in Hgrid.
    apply Forall_cons in Hgrid as [_ Hgrid].
    apply Forall_cons in Hgrid as [H99 _]. revert H99. compute_done.
  - intros Hcells. second_cell_kept Hcells.
Qed.

(** ** C2: the concentration is left alone *)

(** C2: whatever the selection, the [seaice_conc_monthly_cdr] variable of the
    dataset that [restrictRegionally] returns is the one of the input
    dataset, value for value: no cell of it is replaced by the sentinel. *)
Theorem restrictRegionally_conc_untouched g dataset v σ ds new σ' :
  heap σ !! dataset = Some ds →
  restrictRegionally g dataset v σ = (inr new, σ') →
  ∃ ds',
    heap σ' !! new = Some ds' ∧
    data_vars ds' !! conc = data_vars ds !! conc.
Proof.
  intros Hd Hrun.
  apply restrictRegionally_returns_inv in Hrun
    as (ds0 & rkl & labels & σ1 & Hd0 & _ & _ & _ & _ & _ & ->).
  assert (ds0 = ds) as -> by congruence.
  eexists. split.
  - simpl. apply lookup_insert_eq.
  - simpl. apply masked_conc.
Qed.

Lemma restrictRegionally_conc_untouched_witness :
  ∃ ds',
    heap (restrictRegionally mapping_env 1%positive (PyList [13]) session).2
      !! 2%positive = Some ds' ∧
    data_vars ds' !! conc = Some [[Num 7; Num 8; Num 9]].
Proof.
  apply (restrictRegionally_conc_untouched mapping_env 1%positive (PyList [13])
           session two_seas 2%positive).
  - reflexivity.
  - vm_compute; reflexivity.
Defined.

(** ** C3: the caller's dataset is never changed *)

Lemma labels_of_error tbl rkl e : labels_of tbl rkl = inl e → e = item_error.
Proof.
  induction rkl as [|key rkl IH]; simpl; [done|].
  destruct ((filter (λ row, row.1 = key) tbl).*2) as [|x [|y s]];
    try (by intros [= <-]).
  destruct (labels_of tbl rkl) as [e'|ys]; [|done].
  intros [= <-]. by apply IH.
Qed.

Lemma item_error_not_validation :
  item_error ≠ InvalidArgumentType ∧
  ∀ key, item_error ≠ UnknownRegionKey key.
Proof.
  split; [|intros key];
    unfold item_error, InvalidArgumentType, UnknownRegionKey; intros [= Hmsg].
Qed.

(** C3: for every store, every dataset and every argument, valid or not, a
    call leaves every object of the caller's store as it was, the input
    dataset among them.  A call that returns hands back an object that did
    not exist before.  A call that fails validation (not a list, or an
    unknown key) has changed nothing at all: no object was created and
    nothing was written. *)
Theorem restrictRegionally_input_unchanged g dataset v σ :
  (∀ d ds, heap σ !! d = Some ds →
     heap (restrictRegionally g dataset v σ).2 !! d = Some ds) ∧
  (∀ new, (restrictRegionally g dataset v σ).1 = inr new →
     heap σ !! new = None ∧
     is_Some (heap (restrictRegionally g dataset v σ).2 !! new)) ∧
  ((restrictRegionally g dataset v σ).1 = inl InvalidArgumentType →
     (restrictRegionally g dataset v σ).2 = σ) ∧
  (∀ key,
     (restrictRegionally g dataset v σ).1 = inl (UnknownRegionKey key) →
     (restrictRegionally g dataset v σ).2 = σ).
Proof.
  destruct (heap σ !! dataset) as [ds|] eqn:Hd.
  2:{ rewrite restrictRegionally_unbound by done. simpl. by repeat split. }
  destruct (decide (length (mask_keys ds) = length (mask_labels ds))) as [Hlen|Hlen].
  2:{ rewrite (restrictRegionally_ragged _ _ _ _ _ Hd Hlen). simpl.
      by repeat split. }
  rewrite (restrictRegionally_run _ _ _ _ _ Hd Hlen).
  pose proof (checkKeys_raise g v (regionTbl_of ds) σ) as Hraise.
  destruct (checkKeys g v (regionTbl_of ds) σ) as [[e|[]] σ1].
  { simpl in *. rewrite (Hraise e eq_refl). by repeat split. }
  clear Hraise. cbv zeta.
  pose proof (fresh_heap (heap σ)) as Hnew.
  assert (∀ d ds' x, heap σ !! d = Some ds' →
            <[fresh (dom (heap σ)) := x]> (heap σ) !! d = Some ds') as Hkeep.
  { intros d ds' x Hd'. rewrite lookup_insert_ne; [done|]. congruence. }
  destruct (labels_of (regionTbl_of ds) (elements v)) as [e|labels] eqn:Hl.
  - apply labels_of_error in Hl as ->. simpl.
    destruct item_error_not_validation as [Hnl Huk].
    split; [by intros; apply Hkeep|]. split; [done|].
    split; [intros Heq; exfalso; apply Hnl; congruence|].
    intros key Heq. exfalso. apply (Huk key). congruence.
  - simpl. split; [by intros; apply Hkeep|]. split; [|done].
    intros new [= <-]. split; [done|]. rewrite lookup_insert_eq. eauto.
Qed.

(** ** C4: the type test *)

(** C4, as stated, does not hold: a tuple is a sequence (neither a scalar, nor
    a set, nor a string), and the type test still refuses it. *)
Lemma restrictRegionally_rejects_tuple :
  true_sequence (PyTuple [13]) = true ∧
  restrictRegionally mapping_env 1%positive (PyTuple [13]) session
    = (inl InvalidArgumentType, session).
Proof. split; evaluate. Qed.

(** C4, amended: the test is on the exact type [list].  For every argument
    that is not a list (a scalar, a set, a string, and a tuple as well) the
    call fails with the [ValueError] that carries the guidance text, whatever
    the argument contains and with nothing changed; for every list that test
    passes, so the call does not end in that error. *)
Theorem restrictRegionally_list_type_check g dataset v σ ds :
  heap σ !! dataset = Some ds →
  length (mask_keys ds) = length (mask_labels ds) →
  if is_list v
  then (restrictRegionally g dataset v σ).1 ≠ inl InvalidArgumentType
  else restrictRegionally g dataset v σ = (inl InvalidArgumentType, σ).
Proof.
  intros Hd Hlen. unfold InvalidArgumentType.
  rewrite (restrictRegionally_run _ _ _ _ _ Hd Hlen).
  rewrite checkKeys_run. destruct (is_list v); [|done].
  destruct (head _) as [key|].
  { simpl. intros [= Hmsg]. }
  assert ((let (s, σ1) := (@inr exn unit (), σ) in
           match s with
           | inl e => (inl e, σ1)
           | inr _ =>
               let new := fresh (dom (heap σ)) in
               match labels_of (regionTbl_of ds) (elements v) with
               | inl e =>
                   (inl e, {| heap := <[new := masked ds (elements v)]> (heap σ);
                              console := console σ1 |})
               | inr labels =>
                   (inr new,
                    {| heap := <[new := with_attr (masked ds (elements v))
                                          "regions with data"
                                          (summary_of (regionTbl_of ds) (elements v) labels)]>
                                 (heap σ);
                       console := console σ1 ++
                         [Printed (report_of (regionTbl_of ds) (elements v) labels)] |})
               end
           end).1 ≠ inl (ValueError not_a_list_msg)) as Hok.
  { cbv zeta beta iota.
    destruct (labels_of (regionTbl_of ds) (elements v)) as [e|labels] eqn:Hl.
    - apply labels_of_error in Hl as ->. simpl. intros [= Hmsg].
    - simpl. done. }
  case_bool_decide; [|exact Hok].
  unfold warnings_warn. destruct (warnings_imported g); [|by simpl].
  destruct (warnings_suppressed g).
  - exact Hok.
  - unfold emit. cbv zeta beta iota.
    destruct (labels_of (regionTbl_of ds) (elements v)) as [e|labels] eqn:Hl.
    + apply labels_of_error in Hl as ->. simpl. intros [= Hmsg].
    + simpl. done.
Qed.

Lemma restrictRegionally_list_type_check_witness :
  restrictRegionally mapping_env 1%positive (PyInt 13) session
    = (inl InvalidArgumentType, session) ∧
  (restrictRegionally mapping_env 1%positive (PyList [13]) session).1
    ≠ inl InvalidArgumentType.
Proof.
  split.
  - apply (restrictRegionally_list_type_check
             mapping_env 1%positive (PyInt 13) session two_seas); reflexivity.
  - apply (restrictRegionally_list_type_check
             mapping_env 1%positive (PyList [13]) session two_seas); reflexivity.
Defined.

(** ** C5: unknown keys *)

Lemma string_app_length (s t : string) :
  String.length (s ++ t) = (String.length s + String.length t)%nat.
Proof. induction s as [|c s IH]; simpl; [done|]. by rewrite IH. Qed.

Lemma string_app_inv_tail (s1 s2 t : string) : s1 ++ t = s2 ++ t → s1 = s2.
Proof.
  revert s2. induction s1 as [|c s1 IH]; intros [|c' s2] Heq.
  - done.
  - apply (f_equal String.length) in Heq.
    rewrite !string_app_length in Heq. simpl in Heq. lia.
  - apply (f_equal String.length) in Heq.
    rewrite !string_app_length in Heq. simpl in Heq. lia.
  - change (String c (s1 ++ t) = String c' (s2 ++ t)) in Heq.
    injection Heq as -> Heq. f_equal. by apply IH.
Qed.

(** The message of an UnknownRegionKey failure is the text of the source
    around the decimal form of the key, and it determines the key. *)
Lemma UnknownRegionKey_names_key (key : Z) :
  UnknownRegionKey key =
  ValueError ("Region key " ++ str key ++ " does not exist in region mask. " ++ nl ++
              " Redefine regionKeyList with key numbers from table") ∧
  ∀ key', UnknownRegionKey key' = UnknownRegionKey key → key' = key.
Proof.
  split; [done|]. intros key' Heq.
  assert (unknown_key_msg key' = unknown_key_msg key) as Hmsg
    by (unfold UnknownRegionKey in Heq; congruence).
  unfold unknown_key_msg in Hmsg.
  apply (inj (String.app "Region key ")) in Hmsg.
  apply string_app_inv_tail in Hmsg.
  unfold str in Hmsg. by apply (inj pretty) in Hmsg.
Qed.

(** C5: for every list with at least one element that is not a catalogue key,
    the call raises the UnknownRegionKey [ValueError] for such an element (the
    first one in the list); its message spells that key out and no other key
    has the same message ([UnknownRegionKey_names_key]).  The store and the
    console are exactly as they were: nothing was copied, nothing is
    returned. *)
Theorem restrictRegionally_unknown_key g dataset rkl σ ds :
  heap σ !! dataset = Some ds →
  length (mask_keys ds) = length (mask_labels ds) →
  Exists (λ key, key ∉ mask_keys ds) rkl →
  ∃ key,
    key ∈ rkl ∧ (key ∉ mask_keys ds) ∧
    head (filter (λ key, key ∉ mask_keys ds) rkl) = Some key ∧
    restrictRegionally g dataset (PyList rkl) σ = (inl (UnknownRegionKey key), σ).
Proof.
  intros Hd Hlen Hex. unfold UnknownRegionKey.
  destruct (head (filter (λ key, key ∉ mask_keys ds) rkl)) as [key|] eqn:Hhead.
  - exists key. pose proof (head_filter_Some _ _ _ Hhead) as [Hin Hnot].
    split; [done|]. split; [done|]. split; [done|].
    rewrite (restrictRegionally_run _ _ _ _ _ Hd Hlen), checkKeys_run.
    simpl. rewrite regionTbl_keys by done. by rewrite Hhead.
  - apply head_filter_None in Hhead. apply Exists_exists in Hex as (key & Hin & Hnot).
    rewrite Forall_forall in Hhead. by destruct (Hhead key Hin).
Qed.

Lemma restrictRegionally_unknown_key_witness :
  ∃ key,
    key ∈ [13; 999] ∧ (key ∉ mask_keys two_seas) ∧
    head (filter (λ key, key ∉ mask_keys two_seas) [13; 999]) = Some key ∧
    restrictRegionally regional_analysis_env 1%positive (PyList [13; 999]) session =
    (inl (UnknownRegionKey key), session).
Proof.
  apply (restrictRegionally_unknown_key
           regional_analysis_env 1%positive [13; 999] session two_seas).
  - reflexivity.
  - reflexivity.
  - compute_done.
Defined.

Example unknown_key_999 :
  restrictRegionally regional_analysis_env 1%positive (PyList [13; 999]) session =
  (inl (ValueError
          ("Region key 999 does not exist in region mask. " ++ nl ++
           " Redefine regionKeyList with key numbers from table")), session).
Proof. evaluate. Qed.

(** ** C6: the empty selection *)

Lemma cells_kept_where_ext keep1 keep2 ds ds' :
  (∀ r, keep1 r = keep2 r) →
  cells_kept_where keep1 ds ds' → cells_kept_where keep2 ds ds'.
Proof.
  intros Hext Hcells var vals Hvar Hvals.
  destruct (Hcells var vals Hvar Hvals) as (vals' & Hv' & Hlv & Hrows).
  exists vals'. split; [done|]. split; [done|].
  intros t row Hrow. destruct (Hrows t row Hrow) as (row' & Hr' & Hlr & Hcell).
  exists row'. split; [done|]. split; [done|].
  intros i c r Hc Hr. rewrite <- Hext. by apply Hcell.
Qed.

(** In the regional-analysis notebook the empty list ends in a [NameError]:
    the body reaches [warnings.warn] and [warnings] was never imported. *)
Example empty_selection_regional_analysis :
  restrictRegionally regional_analysis_env 1%positive (PyList []) session =
  (inl (NameError "name 'warnings' is not defined"), session).
Proof. evaluate. Qed.

Lemma cells_kept_where_on_grid keep1 keep2 ds ds' :
  (∀ r, r ∈ region_mask ds → keep1 r = keep2 r) →
  cells_kept_where keep1 ds ds' → cells_kept_where keep2 ds ds'.
Proof.
  intros Hext Hcells var vals Hvar Hvals.
  destruct (Hcells var vals Hvar Hvals) as (vals' & Hv' & Hlv & Hrows).
  exists vals'. split; [done|]. split; [done|].
  intros t row Hrow. destruct (Hrows t row Hrow) as (row' & Hr' & Hlr & Hcell).
  exists row'. split; [done|]. split; [done|].
  intros i c r Hc Hr. rewrite <- Hext; [by apply Hcell|].
  by eapply list_elem_of_lookup_2.
Qed.

(** C6, as stated, does not hold in [mapping.ipynb].  The notebook installs
    the 'ignore' filter when it imports [warnings]; the call with the empty
    list completes there and blanks the data, but no warning reaches the
    caller: the summary line is all there is on the console. *)
Lemma empty_selection_warning_not_shown :
  ∃ σ' ds',
    restrictRegionally mapping_env 1%positive (PyList []) beaufort_laptev_session
      = (inr 2%positive, σ') ∧
    heap σ' !! 2%positive = Some ds' ∧
    catalogue_ok beaufort_laptev ∧
    region_mask_catalogued beaufort_laptev ∧
    data_vars ds' !! "ice_thickness" = Some [[NaN; NaN; NaN]] ∧
    console σ' = [Printed "Regions selected: "] ∧
    ∀ msg, Warned msg ∉ console σ'.
Proof.
  eexists _, _. split; [evaluate|].
  split; [evaluate|].
  split; [split; [reflexivity|compute_done]|].
  split; [unfold region_mask_catalogued; simpl; compute_done|].
  split; [evaluate|]. split; [evaluate|].
  intros msg Hin. simpl in Hin. apply list_elem_of_singleton in Hin. discriminate.
Qed.

(** C6, amended: in a session where [warnings] is imported, the call with
    the empty list raises nothing and returns a dataset.  It hands the
    message to [warnings.warn]: the warning is on the console, before the
    summary line, unless the session has silenced warnings.  On a dataset of
    the data model every data variable but the concentration is fully
    missing in the dataset returned. *)
Theorem restrictRegionally_empty_selection g dataset σ ds :
  heap σ !! dataset = Some ds →
  length (mask_keys ds) = length (mask_labels ds) →
  region_mask_catalogued ds →
  warnings_imported g = true →
  ∃ new σ' ds' line,
    restrictRegionally g dataset (PyList []) σ = (inr new, σ') ∧
    heap σ' !! new = Some ds' ∧
    console σ' =
      (console σ ++
       (if warnings_suppressed g then [] else [Warned empty_selection_msg]) ++
       [Printed line])%list ∧
    cells_kept_where (λ _, false) ds ds'.
Proof.
  intros Hd Hlen Hgrid Hw.
  rewrite (restrictRegionally_run _ _ _ _ _ Hd Hlen).
  rewrite checkKeys_valid by done. simpl.
  eexists _, _, _, _. split; [done|]. split; [|split].
  - simpl. apply lookup_insert_eq.
  - simpl. unfold warn_events. simpl. by rewrite <- app_assoc.
  - eapply cells_kept_where_on_grid; [|by apply (masked_cells ds [])].
    intros r Hr. apply bool_decide_eq_false_2.
    unfold region_mask_catalogued in Hgrid. rewrite Forall_forall in Hgrid.
    intros [Hnil|Hnot]; [by apply not_elem_of_nil in Hnil|].
    by apply Hnot, Hgrid.
Qed.

Lemma restrictRegionally_empty_selection_witness :
  ∃ new σ' ds' line,
    restrictRegionally {| warnings_imported := true; warnings_suppressed := false |}
      1%positive (PyList []) beaufort_laptev_session = (inr new, σ') ∧
    heap σ' !! new = Some ds' ∧
    console σ' = ([] ++ [Warned empty_selection_msg] ++ [Printed line])%list ∧
    cells_kept_where (λ _, false) beaufort_laptev ds'.
Proof.
  apply (restrictRegionally_empty_selection
           {| warnings_imported := true; warnings_suppressed := false |}
           1%positive beaufort_laptev_session beaufort_laptev).
  - reflexivity.
  - reflexivity.
  - unfold region_mask_catalogued. simpl. compute_done.
  - reflexivity.
Defined.

(** With the filter left alone the warning is on the console. *)
Example empty_selection_warns :
  console (restrictRegionally
             {| warnings_imported := true; warnings_suppressed := false |}
             1%positive (PyList []) session).2 =
  [Warned empty_selection_msg; Printed "Regions selected: "].
Proof. evaluate. Qed.

(** ** C7: the summary attribute *)

Lemma summary_of_cases ds rkl labels :
  length (mask_keys ds) = length (mask_labels ds) →
  labels_of (regionTbl_of ds) rkl = inr labels →
  summary_of (regionTbl_of ds) rkl labels =
  if bool_decide (length (mask_keys ds) ≤ length rkl)%nat then "All"
  else if bool_decide (list_to_set rkl = inner_arctic) then "Inner Arctic"
  else join ", " labels.
Proof.
  intros Hlen Hl. unfold summary_of.
  rewrite (labels_of_length _ _ _ Hl), regionTbl_length by done.
  destruct (decide (length (mask_keys ds) ≤ length rkl)%nat) as [Hle|Hgt].
  - rewrite (bool_decide_eq_true_2 _ Hle). by rewrite bool_decide_eq_false_2 by lia.
  - rewrite (bool_decide_eq_false_2 _ Hgt). by rewrite bool_decide_eq_true_2 by lia.
Qed.

(** The attribute of every dataset returned, as the code computes it: the
    comparison is between the number of elements of the list and the number
    of catalogued keys, and it asks for fewer, not for as many. *)
Lemma restrictRegionally_summary g dataset rkl σ ds new σ' :
  heap σ !! dataset = Some ds →
  restrictRegionally g dataset (PyList rkl) σ = (inr new, σ') →
  ∃ ds' labels,
    heap σ' !! new = Some ds' ∧
    Forall2 (λ key label, (key, label) ∈ zip (mask_keys ds) (mask_labels ds))
      rkl labels ∧
    attrs ds' !! "regions with data" =
    Some (if bool_decide (length (mask_keys ds) ≤ length rkl)%nat then "All"
          else if bool_decide (list_to_set rkl = inner_arctic) then "Inner Arctic"
          else join ", " labels).
Proof.
  intros Hd Hrun.
  apply restrictRegionally_returns_inv in Hrun
    as (ds0 & rkl0 & labels & σ1 & Hd0 & Hlen & [= <-] & _ & Hl & -> & ->).
  assert (ds0 = ds) as -> by congruence.
  eexists _, labels. split; [|split].
  - simpl. apply lookup_insert_eq.
  - by apply labels_of_rows.
  - simpl. rewrite lookup_insert_eq. f_equal. by apply summary_of_cases.
Qed.

(** A list that passed validation and repeats no key is no longer than the
    catalogue. *)
Lemma distinct_keys_length (keys rkl : list Z) :
  NoDup rkl → Forall (λ key, key ∈ keys) rkl → (length rkl ≤ length keys)%nat.
Proof.
  intros Hnd Hall. apply submseteq_length, NoDup_submseteq; [done|].
  by apply Forall_forall.
Qed.

(** For a list that repeats no key the attribute is set as C7 says: there the
    list is as long as the catalogue exactly when it is not shorter. *)
Lemma restrictRegionally_summary_distinct_keys g dataset rkl σ ds new σ' :
  heap σ !! dataset = Some ds →
  NoDup rkl →
  restrictRegionally g dataset (PyList rkl) σ = (inr new, σ') →
  ∃ ds' labels,
    heap σ' !! new = Some ds' ∧
    Forall2 (λ key label, (key, label) ∈ zip (mask_keys ds) (mask_labels ds))
      rkl labels ∧
    attrs ds' !! "regions with data" =
    Some (if bool_decide (length rkl = length (mask_keys ds)) then "All"
          else if bool_decide (list_to_set rkl = inner_arctic) then "Inner Arctic"
          else join ", " labels).
Proof.
  intros Hd Hnd Hrun.
  destruct (restrictRegionally_summary _ _ _ _ _ _ _ Hd Hrun)
    as (ds' & labels & Hnew & Hrows & Hattr).
  exists ds', labels. split; [done|]. split; [done|]. rewrite Hattr.
  apply restrictRegionally_returns_inv in Hrun
    as (ds0 & rkl0 & labels0 & σ1 & Hd0 & Hlen & [= <-] & Hck & _).
  assert (ds0 = ds) as -> by congruence.
  assert (valid_selection ds rkl) as Hvalid.
  { eapply (checkKeys_passes_iff g ds rkl σ); [done|]. by rewrite Hck. }
  pose proof (distinct_keys_length _ _ Hnd Hvalid) as Hle.
  destruct (decide (length rkl = length (mask_keys ds))) as [Heq|Hne].
  - rewrite (bool_decide_eq_true_2 _ Heq). by rewrite bool_decide_eq_true_2 by lia.
  - rewrite (bool_decide_eq_false_2 _ Hne). by rewrite bool_decide_eq_false_2 by lia.
Qed.

(** C7 does not hold of the code for a list that repeats keys until it is
    longer than the catalogue.  With the two catalogued regions and the list
    [13; 13; 13] the number of elements differs from the number of catalogued
    keys and the selection is not the Inner Arctic one, so C7 asks for the
    joined labels.  The code stores "All" and prints that no regions will be
    removed, and in the same call blanks the cell of region 10: its test is
    [len(labels) < len(regionTbl['key'])]. *)
Lemma summary_all_for_longer_selection :
  ∃ σ' ds',
    restrictRegionally mapping_env 1%positive (PyList [13; 13; 13])
      beaufort_laptev_session = (inr 2%positive, σ') ∧
    heap σ' !! 2%positive = Some ds' ∧
    catalogue_ok beaufort_laptev ∧
    region_mask_catalogued beaufort_laptev ∧
    valid_selection beaufort_laptev [13; 13; 13] ∧
    length [13; 13; 13] ≠ length (mask_keys beaufort_laptev) ∧
    list_to_set [13; 13; 13] ≠ inner_arctic ∧
    attrs ds' !! "regions with data" = Some "All" ∧
    "All" ≠ join ", " ["Beaufort Sea"; "Beaufort Sea"; "Beaufort Sea"] ∧
    console σ' = [Printed all_regions_msg] ∧
    data_vars ds' !! "ice_thickness" = Some [[Num 1; NaN; Num 3]].
Proof.
  eexists _, _. split; [evaluate|].
  split; [evaluate|].
  split; [split; [reflexivity|compute_done]|].
  split; [unfold region_mask_catalogued; simpl; compute_done|].
  split; [unfold valid_selection; simpl; compute_done|].
  split; [simpl; lia|]. split; [|split; [|split; [|split]]].
  - intros Heq. assert (10 ∈ inner_arctic) as Hin by (unfold inner_arctic; set_solver).
    rewrite <- Heq in Hin. set_solver.
  - evaluate.
  - discriminate.
  - evaluate.
  - evaluate.
Qed.

Example summary_inner_arctic :
  summary_at [10; 11; 12; 13; 15] = Some "Inner Arctic" ∧
  summary_at [15; 13; 12; 11; 10; 10] = Some "All" ∧
  summary_at [15; 13; 12; 11; 10] = Some "Inner Arctic".
Proof. repeat split; evaluate. Qed.

Example summary_all :
  summary_at [9; 10; 11; 12; 13; 15] = Some "All".
Proof. evaluate. Qed.

Example summary_beaufort :
  summary_at [13] = Some "Beaufort Sea" ∧
  summary_at [13; 9] = Some "Beaufort Sea, Kara Sea".
Proof. split; evaluate. Qed.

(** ** C8: the order of the per-key exclusions *)

(** In whatever order the keys to remove are taken, the loop leaves the
    values that one pass with a single predicate leaves: "the region
    identifier is in the selection or is no catalogued key". *)
Lemma mask_loop_order_independent (a : DataArray) (keys rkl ks : list Z) :
  ks ≡ₚ filter (λ key, key ∉ rkl) keys →
  foldl where_region_mask_ne a ks =
  DataArray_where (λ r, bool_decide (r ∈ rkl ∨ r ∉ keys)) a.
Proof.
  intros Hperm. rewrite foldl_where_region_mask_ne.
  apply DataArray_where_ext. intros r _. apply bool_decide_ext.
  rewrite Hperm, list_elem_of_filter.
  destruct (decide (r ∈ rkl)), (decide (r ∈ keys)); tauto.
Qed.

(** C8: on a grid of the data model (every region identifier is a catalogue
    key), in whatever order the keys to remove are taken, the loop of
    key-exclusions leaves the values that one pass with the single predicate
    "the region identifier is in the selection" leaves. *)
Theorem mask_loop_selection_predicate (a : DataArray) (keys rkl ks : list Z) :
  ks ≡ₚ filter (λ key, key ∉ rkl) keys →
  Forall (λ r, r ∈ keys) (coord_region_mask a) →
  foldl where_region_mask_ne a ks =
  DataArray_where (λ r, bool_decide (r ∈ rkl)) a.
Proof.
  intros Hperm Hgrid. rewrite foldl_where_region_mask_ne.
  apply DataArray_where_ext. intros r Hr. apply bool_decide_ext.
  rewrite Forall_forall in Hgrid. specialize (Hgrid r Hr).
  rewrite Hperm, list_elem_of_filter.
  destruct (decide (r ∈ rkl)); tauto.
Qed.

Lemma mask_loop_selection_predicate_witness :
  foldl where_region_mask_ne
    {| values := [[Num 1; Num 2; Num 3]]; coord_region_mask := [13; 15; 10] |}
    [15; 10] =
  DataArray_where (λ r, bool_decide (r ∈ [13]))
    {| values := [[Num 1; Num 2; Num 3]]; coord_region_mask := [13; 15; 10] |}.
Proof.
  apply (mask_loop_selection_predicate _ [10; 13; 15] [13] [15; 10]).
  - vm_compute. apply perm_swap.
  - simpl. compute_done.
Defined.

(** Outside the data model: on a grid with a region identifier that the
    catalogue does not list, the loop keeps the cell and the predicate "the
    identifier is in the selection" does not. *)
Example mask_loop_is_not_selection_predicate :
  foldl where_region_mask_ne
    {| values := [[Num 1; Num 2; Num 3]]; coord_region_mask := [13; 99; 10] |}
    (filter (λ key, key ∉ [13]) [10; 13])
  ≠ DataArray_where (λ r, bool_decide (r ∈ [13]))
      {| values := [[Num 1; Num 2; Num 3]]; coord_region_mask := [13; 99; 10] |}.
Proof. vm_compute. discriminate. Qed.

(** ** C9: filtering twice *)

Lemma mask_vars_idemp ks mask m :
  mask_vars ks mask (mask_vars ks mask m) = mask_vars ks mask m.
Proof.
  apply map_eq. intros x. unfold mask_vars. rewrite !map_lookup_imap.
  destruct (m !! x) as [v|]; [simpl|done].
  case_bool_decide; [|done]. by rewrite mask_loop_idemp.
Qed.

Lemma masked_idemp ds rkl k s :
  with_attr (masked (with_attr (masked ds rkl) k s) rkl) k s =
  with_attr (masked ds rkl) k s.
Proof.
  unfold with_attr, masked, with_vars, regionTbl_of. simpl.
  by rewrite mask_vars_idemp, insert_insert_eq.
Qed.

(** Whether validation passes does not depend on the store or the console. *)
Lemma checkKeys_passes_anywhere g v tbl σ σ1 τ :
  checkKeys g v tbl σ = (inr (), σ1) →
  ∃ τ1, checkKeys g v tbl τ = (inr (), τ1).
Proof.
  rewrite !checkKeys_run. destruct (is_list v); [|done].
  destruct (head _); [done|]. case_bool_decide; [|eauto].
  unfold warnings_warn. destruct (warnings_imported g); [|done].
  destruct (warnings_suppressed g); eauto.
Qed.

(** C9: if a call with some argument returns a dataset, a second call with the
    same argument on that dataset (wherever it is stored) returns a dataset
    too, and the two are equal: same variables with the same values, same
    coordinate, same catalogue, same attributes. *)
Theorem restrictRegionally_idempotent g dataset v σ new σ' ds1 :
  restrictRegionally g dataset v σ = (inr new, σ') →
  heap σ' !! new = Some ds1 →
  ∀ τ d,
    heap τ !! d = Some ds1 →
    ∃ new2 τ',
      restrictRegionally g d v τ = (inr new2, τ') ∧
      heap τ' !! new2 = Some ds1.
Proof.
  intros Hrun Hds1 τ d Hd.
  apply restrictRegionally_returns_inv in Hrun
    as (ds & rkl & labels & σ1 & _ & Hlen & -> & Hck & Hl & -> & ->).
  simpl in Hds1. rewrite lookup_insert_eq in Hds1. injection Hds1 as <-.
  set (s := summary_of (regionTbl_of ds) rkl labels) in *.
  set (ds1 := with_attr (masked ds rkl) "regions with data" s) in *.
  assert (regionTbl_of ds1 = regionTbl_of ds) as Htbl by done.
  rewrite (restrictRegionally_run _ _ _ _ ds1 Hd) by done.
  rewrite Htbl.
  destruct (checkKeys_passes_anywhere _ _ _ _ _ τ Hck) as [τ1 ->].
  simpl. rewrite Hl. eexists _, _. split; [done|].
  simpl. rewrite lookup_insert_eq. f_equal. apply masked_idemp.
Qed.

Lemma restrictRegionally_idempotent_witness :
  ∃ new2 τ',
    restrictRegionally mapping_env 2%positive (PyList [13])
      (restrictRegionally mapping_env 1%positive (PyList [13]) session).2
      = (inr new2, τ') ∧
    heap τ' !! new2 =
    heap (restrictRegionally mapping_env 1%positive (PyList [13]) session).2
      !! 2%positive.
Proof.
  apply (restrictRegionally_idempotent mapping_env 1%positive (PyList [13])
           session 2%positive
           (restrictRegionally mapping_env 1%positive (PyList [13]) session).2).
  - vm_compute; reflexivity.
  - vm_compute; reflexivity.
  - vm_compute; reflexivity.
Defined.

(** ** C10: duplicates and the length comparison *)

Lemma catalogue_label_unique (tbl : list (Z * string)) key x y :
  NoDup tbl.*1 → (key, x) ∈ tbl → (key, y) ∈ tbl → x = y.
Proof.
  intros Hnd Hx Hy.
  pose proof (filter_key_singleton tbl key x Hnd Hx) as Hfx.
  rewrite (filter_key_singleton tbl key y Hnd Hy) in Hfx. by injection Hfx.
Qed.

(** C10, as stated, does not hold.  On a catalogue of seven regions the list
    [10; 11; 12; 13; 15; 15] is valid, repeats a key and is shorter than the
    catalogue, so the claim asks for the joined labels with "Arctic Ocean"
    twice.  The set of its elements is the Inner Arctic one, and the code,
    which compares sets there, stores "Inner Arctic". *)
Lemma inner_arctic_with_repeated_key :
  ∃ σ' ds',
    restrictRegionally mapping_env 1%positive (PyList [10; 11; 12; 13; 15; 15])
      seven_seas_session = (inr 2%positive, σ') ∧
    heap σ' !! 2%positive = Some ds' ∧
    catalogue_ok seven_seas ∧
    region_mask_catalogued seven_seas ∧
    valid_selection seven_seas [10; 11; 12; 13; 15; 15] ∧
    ¬ NoDup [10; 11; 12; 13; 15; 15] ∧
    (length [10; 11; 12; 13; 15; 15] < length (mask_keys seven_seas))%nat ∧
    attrs ds' !! "regions with data" = Some "Inner Arctic" ∧
    "Inner Arctic" ≠
    join ", " ["Laptev Sea"; "East Siberian Sea"; "Chukchi Sea"; "Beaufort Sea";
               "Arctic Ocean"; "Arctic Ocean"].
Proof.
  eexists _, _. split; [evaluate|].
  split; [evaluate|].
  split; [split; [reflexivity|compute_done]|].
  split; [unfold region_mask_catalogued; simpl; compute_done|].
  split; [unfold valid_selection; simpl; compute_done|].
  split; [|split; [simpl; lia|split; [evaluate|discriminate]]].
  intros Hnd. do 4 apply NoDup_cons in Hnd as [_ Hnd].
  apply NoDup_cons in Hnd as [Hin _]. apply Hin. left.
Qed.

(** C10, amended.  Validation asks of each element only that it be a
    catalogue key: a valid list that repeats keys passes it, leaving store and
    console as they were, and the call returns.  In every dataset returned
    for a valid list the labels are resolved one per element, each from the
    catalogue row of its key, so equal keys have equal labels, and the
    summary is chosen by the number of elements: "All" when the list has at
    least as many elements as the catalogue has keys, whether or not it
    names them all; for a shorter list "Inner Arctic" when the set of its
    elements is {10, 11, 12, 13, 15}, whatever keys it repeats, and otherwise
    the labels joined in the order of the list, a repeated key repeating its
    label. *)
Theorem restrictRegionally_duplicate_keys g dataset rkl σ ds :
  heap σ !! dataset = Some ds →
  catalogue_ok ds →
  valid_selection ds rkl →
  (¬ NoDup rkl →
     checkKeys g (PyList rkl) (regionTbl_of ds) σ = (inr (), σ) ∧
     ∃ new σ', restrictRegionally g dataset (PyList rkl) σ = (inr new, σ')) ∧
  ∀ new σ',
    restrictRegionally g dataset (PyList rkl) σ = (inr new, σ') →
    ∃ ds' labels,
      heap σ' !! new = Some ds' ∧
      Forall2 (λ key label, (key, label) ∈ zip (mask_keys ds) (mask_labels ds))
        rkl labels ∧
      (∀ i j key, rkl !! i = Some key → rkl !! j = Some key →
         labels !! i = labels !! j) ∧
      ((length (mask_keys ds) ≤ length rkl)%nat →
         attrs ds' !! "regions with data" = Some "All") ∧
      ((length rkl < length (mask_keys ds))%nat →
       list_to_set rkl = inner_arctic →
         attrs ds' !! "regions with data" = Some "Inner Arctic") ∧
      ((length rkl < length (mask_keys ds))%nat →
       list_to_set rkl ≠ inner_arctic →
         attrs ds' !! "regions with data" = Some (join ", " labels)).
Proof.
  intros Hd [Hlen Hnd] Hvalid. split.
  - intros Hdup.
    assert (rkl ≠ []) as Hne by (intros ->; apply Hdup; constructor).
    assert (rkl = [] → warnings_imported g = true) as Hw by done.
    split.
    + rewrite checkKeys_valid; [| |done].
      * unfold warn_events. rewrite bool_decide_eq_false_2.
        -- destruct σ. simpl. by rewrite app_nil_r.
        -- intros Hnil. by apply nil_length_inv in Hnil.
      * unfold valid_selection in Hvalid. by rewrite regionTbl_keys.
    + destruct (restrictRegionally_valid g dataset rkl σ ds Hd (conj Hlen Hnd)
                  Hvalid Hw) as (labels & _ & Hrun).
      eauto.
  - intros new σ' Hrun.
    destruct (restrictRegionally_summary _ _ _ _ _ _ _ Hd Hrun)
      as (ds' & labels & Hnew & Hrows & Hattr).
    exists ds', labels. split; [done|]. split; [done|].
    split; [|split; [|split]].
    + intros i j key Hi Hj.
      destruct (Forall2_lookup_l _ _ _ _ _ Hrows Hi) as (x & Hx & Hinx).
      destruct (Forall2_lookup_l _ _ _ _ _ Hrows Hj) as (y & Hy & Hiny).
      rewrite Hx, Hy. f_equal.
      eapply (catalogue_label_unique (regionTbl_of ds) key); [|done|done].
      by rewrite regionTbl_keys.
    + intros Hle. rewrite Hattr. by rewrite bool_decide_eq_true_2.
    + intros Hlt Hset. rewrite Hattr.
      rewrite bool_decide_eq_false_2 by lia. by rewrite bool_decide_eq_true_2.
    + intros Hlt Hset. rewrite Hattr.
      rewrite bool_decide_eq_false_2 by lia. by rewrite bool_decide_eq_false_2.
Qed.

Lemma restrictRegionally_duplicate_keys_witness :
  checkKeys mapping_env (PyList [13; 13; 13]) (regionTbl_of beaufort_laptev)
    beaufort_laptev_session = (inr (), beaufort_laptev_session) ∧
  ∃ new σ' ds',
    restrictRegionally mapping_env 1%positive (PyList [13; 13; 13])
      beaufort_laptev_session = (inr new, σ') ∧
    heap σ' !! new = Some ds' ∧
    attrs ds' !! "regions with data" = Some "All".
Proof.
  destruct (restrictRegionally_duplicate_keys
              mapping_env 1%positive [13; 13; 13] beaufort_laptev_session
              beaufort_laptev)
    as [Haccept Hsummary].
  - reflexivity.
  - split; [reflexivity|compute_done].
  - unfold valid_selection. simpl. compute_done.
  - destruct Haccept as [Hck (new & σ' & Hrun)].
    { intros Hnd. apply NoDup_cons in Hnd as [Hin _]. apply Hin. left. }
    split; [exact Hck|].
    destruct (Hsummary new σ' Hrun) as (ds' & labels & Hnew & _ & _ & Hall & _).
    exists new, σ', ds'. split; [exact Hrun|]. split; [exact Hnew|].
    apply Hall. simpl. lia.
Defined.

Example repeated_key_on_seven_seas :
  ∃ σ' ds',
    restrictRegionally mapping_env 1%positive (PyList [13; 9; 13])
      seven_seas_session = (inr 2%positive, σ') ∧
    heap σ' !! 2%positive = Some ds' ∧
    attrs ds' !! "regions with data" = Some "Beaufort Sea, Kara Sea, Beaufort Sea".
Proof. eexists _, _. repeat split; evaluate. Qed.

Example repeated_key_repeats_label :
  summary_at [13; 13] = Some "Beaufort Sea, Beaufort Sea" ∧
  summary_at [13; 9; 13; 9; 13; 9] = Some "All".
Proof. split; evaluate. Qed.

(** * Further properties of [restrictRegionally] and [checkKeys] *)

(** ** What the returned dataset shares with the input *)

Lemma mask_vars_lookup ks mask (m : gmap string (list (list cell))) var :
  mask_vars ks mask m !! var =
  (λ v, if bool_decide (var ≠ conc) then mask_loop ks mask v else v) <$> m !! var.
Proof. unfold mask_vars. rewrite map_lookup_imap. by destruct (m !! var). Qed.

Lemma mask_vars_dom ks mask (m : gmap string (list (list cell))) :
  dom (mask_vars ks mask m) = dom m.
Proof.
  apply set_eq. intros var. rewrite !elem_of_dom, mask_vars_lookup.
  by rewrite fmap_is_Some.
Qed.

(** X1: the dataset a call returns has the variables of the input under the
    same names, the same [region_mask] coordinate and the same catalogue; its
    attributes are those of the input with the one entry "regions with data"
    set, whatever that entry was before. *)
Theorem restrictRegionally_frame g dataset v σ ds new σ' :
  heap σ !! dataset = Some ds →
  restrictRegionally g dataset v σ = (inr new, σ') →
  ∃ ds' summary,
    heap σ' !! new = Some ds' ∧
    dom (data_vars ds') = dom (data_vars ds) ∧
    region_mask ds' = region_mask ds ∧
    mask_keys ds' = mask_keys ds ∧
    mask_labels ds' = mask_labels ds ∧
    attrs ds' = <["regions with data" := summary]> (attrs ds).
Proof.
  intros Hd Hrun.
  apply restrictRegionally_returns_inv in Hrun
    as (ds0 & rkl & labels & σ1 & Hd0 & _ & _ & _ & _ & _ & ->).
  assert (ds0 = ds) as -> by congruence.
  eexists _, _. split; [simpl; apply lookup_insert_eq|].
  simpl. split; [apply mask_vars_dom|]. done.
Qed.

Lemma restrictRegionally_frame_witness :
  ∃ ds' summary,
    heap (restrictRegionally mapping_env 1%positive (PyList [13]) session).2
      !! 2%positive = Some ds' ∧
    dom (data_vars ds') = dom (data_vars two_seas) ∧
    region_mask ds' = [13; 99; 10] ∧
    mask_keys ds' = [10; 13] ∧
    mask_labels ds' = ["Laptev Sea"; "Beaufort Sea"] ∧
    attrs ds' = <["regions with data" := summary]> ∅.
Proof.
  apply (restrictRegionally_frame mapping_env 1%positive (PyList [13])
           session two_seas 2%positive).
  - reflexivity.
  - vm_compute; reflexivity.
Defined.

(** X2: a call never puts a new number into a cell.  Every cell of every
    variable of the returned dataset holds what the same cell of the input
    holds, or the sentinel; a cell that was missing stays missing. *)
Theorem restrictRegionally_cells_kept_or_missing g dataset v σ ds new σ' :
  heap σ !! dataset = Some ds →
  restrictRegionally g dataset v σ = (inr new, σ') →
  ∃ ds',
    heap σ' !! new = Some ds' ∧
    ∀ var vals' t row' i c',
      data_vars ds' !! var = Some vals' →
      vals' !! t = Some row' → row' !! i = Some c' →
      ∃ vals row c,
        data_vars ds !! var = Some vals ∧ vals !! t = Some row ∧
        row !! i = Some c ∧ (c' = c ∨ c' = NaN).
Proof.
  intros Hd Hrun.
  apply restrictRegionally_returns_inv in Hrun
    as (ds0 & rkl & labels & σ1 & Hd0 & _ & _ & _ & _ & _ & ->).
  assert (ds0 = ds) as -> by congruence.
  eexists. split; [simpl; apply lookup_insert_eq|].
  intros var vals' t row' i c'. simpl. rewrite mask_vars_lookup.
  destruct (data_vars ds !! var) as [vals|] eqn:Hvals; [simpl|done].
  intros [= <-]. case_bool_decide.
  - rewrite mask_loop_where, list_lookup_fmap.
    destruct (vals !! t) as [row|] eqn:Hrow; [simpl|done].
    intros [= <-]. rewrite where_row_lookup.
    destruct (row !! i) as [c|] eqn:Hc; [simpl|done].
    intros [= <-]. exists vals, row, c. split; [done|]. split; [done|].
    split; [done|]. destruct (region_mask ds !! i) as [r|]; [|by left].
    destruct (bool_decide _); [by left|by right].
  - intros Hrow Hc. exists vals, row', c'. eauto.
Qed.

Lemma restrictRegionally_cells_kept_or_missing_witness :
  ∃ ds',
    heap (restrictRegionally mapping_env 1%positive (PyList [13]) session).2
      !! 2%positive = Some ds' ∧
    ∀ var vals' t row' i c',
      data_vars ds' !! var = Some vals' →
      vals' !! t = Some row' → row' !! i = Some c' →
      ∃ vals row c,
        data_vars two_seas !! var = Some vals ∧ vals !! t = Some row ∧
        row !! i = Some c ∧ (c' = c ∨ c' = NaN).
Proof.
  apply (restrictRegionally_cells_kept_or_missing mapping_env 1%positive
           (PyList [13]) session two_seas 2%positive).
  - reflexivity.
  - vm_compute; reflexivity.
Defined.

(** ** Selecting every region *)

Lemma mask_vars_nil mask (m : gmap string (list (list cell))) :
  mask_vars [] mask m = m.
Proof.
  apply map_eq. intros var. rewrite mask_vars_lookup.
  destruct (m !! var) as [v|]; [simpl|done]. f_equal.
  case_bool_decide; [|done]. rewrite mask_loop_where.
  rewrite <- (list_fmap_id v) at 2. apply list_fmap_ext. intros _ row _.
  rewrite <- (where_row_true mask row) at 2. apply where_row_ext.
  intros r _. apply bool_decide_eq_true_2, not_elem_of_nil.
Qed.

(** X3: with a list that names every catalogued key (as
    [list(tbl['key'])] does) no cell of any variable changes, the attribute
    is "All" and the line printed last says that no region is removed.  (The
    list can be empty only on an empty catalogue, and then needs
    [warnings].) *)
Theorem restrictRegionally_all_regions g dataset rkl σ ds :
  heap σ !! dataset = Some ds →
  catalogue_ok ds →
  valid_selection ds rkl →
  (rkl = [] → warnings_imported g = true) →
  (∀ key, key ∈ mask_keys ds → key ∈ rkl) →
  ∃ new σ' ds',
    restrictRegionally g dataset (PyList rkl) σ = (inr new, σ') ∧
    heap σ' !! new = Some ds' ∧
    data_vars ds' = data_vars ds ∧
    attrs ds' !! "regions with data" = Some "All" ∧
    last (console σ') = Some (Printed all_regions_msg).
Proof.
  intros Hd [Hlen Hnd] Hvalid Hw Hcover.
  destruct (restrictRegionally_valid g dataset rkl σ ds Hd (conj Hlen Hnd) Hvalid Hw)
    as (labels & Hl & Hrun).
  assert (length (mask_keys ds) ≤ length rkl)%nat as Hle.
  { apply submseteq_length, NoDup_submseteq; [done|]. intros key. apply Hcover. }
  assert (filter (λ key, key ∉ rkl) (regionTbl_of ds).*1 = []) as Hnone.
  { rewrite regionTbl_keys by done. apply filter_nil_Forall, Forall_forall.
    intros key Hkey Hnot. by apply Hnot, Hcover. }
  eexists _, _, _. split; [exact Hrun|]. split; [simpl; apply lookup_insert_eq|].
  split; [|split].
  - simpl. by rewrite Hnone, mask_vars_nil.
  - simpl. rewrite lookup_insert_eq, (summary_of_cases ds rkl labels Hlen Hl).
    by rewrite bool_decide_eq_true_2.
  - simpl. rewrite last_snoc. f_equal. f_equal. unfold report_of.
    rewrite (labels_of_length _ _ _ Hl), regionTbl_length by done.
    by rewrite bool_decide_eq_false_2 by lia.
Qed.

Lemma restrictRegionally_all_regions_witness :
  ∃ new σ' ds',
    restrictRegionally mapping_env 1%positive (PyList [10; 13]) session
      = (inr new, σ') ∧
    heap σ' !! new = Some ds' ∧
    data_vars ds' = data_vars two_seas ∧
    attrs ds' !! "regions with data" = Some "All" ∧
    last (console σ') = Some (Printed all_regions_msg).
Proof.
  apply (restrictRegionally_all_regions mapping_env 1%positive [10; 13]
           session two_seas).
  - reflexivity.
  - split; [reflexivity|compute_done].
  - unfold valid_selection. simpl. compute_done.
  - discriminate.
  - intros key Hkey. exact Hkey.
Defined.

(** ** The data depend on the set of selected keys only *)

Lemma returned_data_vars g dataset rkl σ ds new σ' :
  heap σ !! dataset = Some ds →
  restrictRegionally g dataset (PyList rkl) σ = (inr new, σ') →
  ∃ ds',
    heap σ' !! new = Some ds' ∧
    region_mask ds' = region_mask ds ∧
    mask_keys ds' = mask_keys ds ∧
    mask_labels ds' = mask_labels ds ∧
    length (mask_keys ds) = length (mask_labels ds) ∧
    data_vars ds' =
    mask_vars (filter (λ key, key ∉ rkl) (mask_keys ds)) (region_mask ds)
      (data_vars ds).
Proof.
  intros Hd Hrun.
  apply restrictRegionally_returns_inv in Hrun
    as (ds0 & rkl0 & labels & σ1 & Hd0 & Hlen & [= <-] & _ & _ & _ & ->).
  assert (ds0 = ds) as -> by congruence.
  eexists. split; [simpl; apply lookup_insert_eq|].
  simpl. by rewrite regionTbl_keys.
Qed.

(** X4: two lists with the same elements, in whatever order and with whatever
    repetitions, give the same values in every variable; only the summary
    can tell them apart. *)
Theorem restrictRegionally_data_by_key_set g dataset rkl1 rkl2 σ ds n1 σ1 n2 σ2 :
  heap σ !! dataset = Some ds →
  (∀ key, key ∈ rkl1 ↔ key ∈ rkl2) →
  restrictRegionally g dataset (PyList rkl1) σ = (inr n1, σ1) →
  restrictRegionally g dataset (PyList rkl2) σ = (inr n2, σ2) →
  ∃ d1 d2,
    heap σ1 !! n1 = Some d1 ∧ heap σ2 !! n2 = Some d2 ∧
    data_vars d1 = data_vars d2.
Proof.
  intros Hd Hsame Hrun1 Hrun2.
  destruct (returned_data_vars _ _ _ _ _ _ _ Hd Hrun1)
    as (d1 & Hd1 & _ & _ & _ & _ & Hv1).
  destruct (returned_data_vars _ _ _ _ _ _ _ Hd Hrun2)
    as (d2 & Hd2 & _ & _ & _ & _ & Hv2).
  exists d1, d2. split; [done|]. split; [done|].
  rewrite Hv1, Hv2. f_equal. apply list_filter_iff.
  intros key. by rewrite Hsame.
Qed.

Lemma restrictRegionally_data_by_key_set_witness :
  ∃ d1 d2,
    heap (restrictRegionally mapping_env 1%positive (PyList [13; 10; 13]) session).2
      !! 2%positive = Some d1 ∧
    heap (restrictRegionally mapping_env 1%positive (PyList [10; 13]) session).2
      !! 2%positive = Some d2 ∧
    data_vars d1 = data_vars d2.
Proof.
  apply (restrictRegionally_data_by_key_set mapping_env 1%positive
           [13; 10; 13] [10; 13] session two_seas 2%positive _ 2%positive _).
  - reflexivity.
  - intros key. rewrite !elem_of_cons. tauto.
  - vm_compute; reflexivity.
  - vm_compute; reflexivity.
Defined.

(** ** Filtering a filtered dataset *)

Lemma mask_vars_compose ks1 ks2 mask (m : gmap string (list (list cell))) :
  mask_vars ks2 mask (mask_vars ks1 mask m) = mask_vars (ks1 ++ ks2) mask m.
Proof.
  apply map_eq. intros var. rewrite !mask_vars_lookup.
  destruct (m !! var) as [v|]; [simpl|done]. f_equal.
  case_bool_decide; [|done].
  rewrite !mask_loop_where, <- list_fmap_compose. apply list_fmap_ext.
  intros _ row _. simpl. rewrite where_row_compose. apply where_row_ext.
  intros r _. rewrite <- bool_decide_and. apply bool_decide_ext.
  rewrite elem_of_app. tauto.
Qed.

Lemma mask_vars_cells ks ds ds' :
  data_vars ds' = mask_vars ks (region_mask ds) (data_vars ds) →
  cells_kept_where (λ r, bool_decide (r ∉ ks)) ds ds'.
Proof.
  intros Hvars var vals Hvar Hvals.
  rewrite Hvars, mask_vars_lookup, Hvals. simpl.
  rewrite bool_decide_eq_true_2 by done. rewrite mask_loop_where.
  eexists. split; [done|]. split; [by rewrite length_fmap|].
  intros t row Hrow. rewrite list_lookup_fmap, Hrow. simpl.
  eexists. split; [done|]. split; [by rewrite where_row_length|].
  intros i c r Hc Hr. by rewrite where_row_lookup, Hc, Hr.
Qed.

(** X5: the regional-analysis notebook stores the result under the name of its
    input, so a second call works on the filtered dataset.  The second
    selection then narrows the first: a cell keeps its value only if its
    region identifier is in both lists (or is no catalogued key); a region
    removed by the first call cannot be brought back by the second. *)
Theorem restrictRegionally_twice_intersects g dataset rkl1 rkl2 σ ds n1 σ1 n2 σ2 :
  heap σ !! dataset = Some ds →
  restrictRegionally g dataset (PyList rkl1) σ = (inr n1, σ1) →
  restrictRegionally g n1 (PyList rkl2) σ1 = (inr n2, σ2) →
  ∃ ds2,
    heap σ2 !! n2 = Some ds2 ∧
    cells_kept_where
      (λ r, bool_decide ((r ∈ rkl1 ∧ r ∈ rkl2) ∨ r ∉ mask_keys ds)) ds ds2.
Proof.
  intros Hd Hrun1 Hrun2.
  destruct (returned_data_vars _ _ _ _ _ _ _ Hd Hrun1)
    as (ds1 & Hd1 & Hmask1 & Hkeys1 & _ & _ & Hv1).
  destruct (returned_data_vars _ _ _ _ _ _ _ Hd1 Hrun2)
    as (ds2 & Hd2 & _ & _ & _ & _ & Hv2).
  exists ds2. split; [done|].
  rewrite Hmask1, Hkeys1, Hv1, mask_vars_compose in Hv2.
  eapply cells_kept_where_ext; [|by apply mask_vars_cells].
  intros r. apply bool_decide_ext.
  rewrite elem_of_app, !list_elem_of_filter.
  destruct (decide (r ∈ rkl1)), (decide (r ∈ rkl2)),
    (decide (r ∈ mask_keys ds)); tauto.
Qed.

Lemma restrictRegionally_twice_intersects_witness :
  ∃ ds2,
    heap (restrictRegionally mapping_env 2%positive (PyList [10])
            (restrictRegionally mapping_env 1%positive (PyList [13]) session).2).2
      !! 3%positive = Some ds2 ∧
    cells_kept_where
      (λ r, bool_decide ((r ∈ [13] ∧ r ∈ [10]) ∨ r ∉ mask_keys two_seas))
      two_seas ds2.
Proof.
  apply (restrictRegionally_twice_intersects mapping_env 1%positive [13] [10]
           session two_seas 2%positive
           (restrictRegionally mapping_env 1%positive (PyList [13]) session).2
           3%positive).
  - reflexivity.
  - vm_compute; reflexivity.
  - vm_compute; reflexivity.
Defined.

Example beaufort_then_laptev :
  ∃ ds2,
    heap (restrictRegionally mapping_env 2%positive (PyList [10])
            (restrictRegionally mapping_env 1%positive (PyList [13]) session).2).2
      !! 3%positive = Some ds2 ∧
    data_vars ds2 !! "ice_thickness" = Some [[NaN; Num 2; NaN]].
Proof. eexists. split; evaluate. Qed.

(** ** A catalogue that lists a key twice *)

Lemma filter_two_positions {A : Type} (P : A → Prop) `{!∀ x, Decision (P x)}
    (l : list A) i j a b :
  (i < j)%nat → l !! i = Some a → l !! j = Some b → P a → P b →
  (2 ≤ length (filter P l))%nat.
Proof.
  intros Hij Hi Hj Ha Hb.
  rewrite <- (take_drop_middle l i a Hi), filter_app, filter_cons_True by done.
  rewrite length_app. simpl.
  assert (b ∈ filter P (drop (S i) l)) as Hin.
  { apply list_elem_of_filter. split; [done|].
    apply list_elem_of_lookup. exists (j - S i)%nat.
    rewrite lookup_drop. by replace (S i + (j - S i))%nat with j by lia. }
  destruct (filter P (drop (S i) l)); [by apply not_elem_of_nil in Hin|].
  simpl. lia.
Qed.

Lemma labels_of_ambiguous tbl rkl key :
  key ∈ rkl →
  length (filter (λ row, row.1 = key) tbl) ≠ 1%nat →
  labels_of tbl rkl = inl item_error.
Proof.
  intros Hin Hlen. induction rkl as [|key0 rkl IH].
  - by apply not_elem_of_nil in Hin.
  - simpl.
    destruct ((filter (λ row, row.1 = key0) tbl).*2) as [|x [|y s]] eqn:Hf;
      try done.
    apply elem_of_cons in Hin as [->|Hin].
    + exfalso. apply Hlen.
      by rewrite <- (length_fmap snd), Hf.
    + by rewrite IH.
Qed.

(** X6: validation looks for each key among the catalogue keys and is content
    with a key that the catalogue lists twice.  A list with such a key then
    fails after validation, when the label is looked up: the call ends in the
    [ValueError] of [item()], it prints nothing, and the input dataset is as
    it was. *)
Theorem restrictRegionally_duplicated_catalogue_key g dataset rkl σ ds key i j :
  heap σ !! dataset = Some ds →
  length (mask_keys ds) = length (mask_labels ds) →
  Forall (λ key, key ∈ mask_keys ds) rkl →
  key ∈ rkl →
  (i < j)%nat →
  mask_keys ds !! i = Some key →
  mask_keys ds !! j = Some key →
  (restrictRegionally g dataset (PyList rkl) σ).1 = inl item_error ∧
  heap (restrictRegionally g dataset (PyList rkl) σ).2 !! dataset = Some ds ∧
  console (restrictRegionally g dataset (PyList rkl) σ).2 = console σ.
Proof.
  intros Hd Hlen Hall Hin Hij Hi Hj.
  assert (rkl ≠ []) as Hne by (intros ->; by apply not_elem_of_nil in Hin).
  rewrite (restrictRegionally_run _ _ _ _ _ Hd Hlen).
  rewrite checkKeys_valid; [|by rewrite regionTbl_keys|done].
  assert (∀ k, mask_keys ds !! k = Some key →
            ∃ label, regionTbl_of ds !! k = Some (key, label)) as Hrow.
  { intros k Hk.
    destruct (lookup_lt_is_Some_2 (mask_labels ds) k) as [label Hlabel].
    { rewrite <- Hlen. by eapply lookup_lt_Some. }
    exists label. unfold regionTbl_of.
    by rewrite lookup_zip_with, Hk, Hlabel. }
  destruct (Hrow i Hi) as [li Hli]. destruct (Hrow j Hj) as [lj Hlj].
  cbn [elements].
  rewrite (labels_of_ambiguous (regionTbl_of ds) rkl key Hin).
  2:{ pose proof (filter_two_positions (λ row : Z * string, row.1 = key)
                    (regionTbl_of ds) i j _ _ Hij Hli Hlj eq_refl eq_refl).
      lia. }
  cbn [fst snd heap console]. split; [done|]. split.
  - rewrite lookup_insert_ne; [done|].
    pose proof (fresh_heap (heap σ)) as Hfresh. unfold loc in *. congruence.
  - unfold warn_events. rewrite bool_decide_eq_false_2; [by rewrite app_nil_r|].
    intros Hnil. by apply nil_length_inv in Hnil.
Qed.

Lemma restrictRegionally_duplicated_catalogue_key_witness :
  (restrictRegionally mapping_env 1%positive (PyList [10; 13]) listed_twice_session).1
    = inl item_error ∧
  heap (restrictRegionally mapping_env 1%positive (PyList [10; 13])
          listed_twice_session).2 !! 1%positive = Some listed_twice ∧
  console (restrictRegionally mapping_env 1%positive (PyList [10; 13])
             listed_twice_session).2 = console listed_twice_session.
Proof.
  apply (restrictRegionally_duplicated_catalogue_key mapping_env 1%positive
           [10; 13] listed_twice_session listed_twice 13 0%nat 2%nat).
  - reflexivity.
  - reflexivity.
  - compute_done.
  - compute_done.
  - lia.
  - reflexivity.
  - reflexivity.
Defined.

(** ** Where the session matters *)

Lemma checkKeys_session_irrelevant g g' v tbl σ :
  v ≠ PyList [] → checkKeys g v tbl σ = checkKeys g' v tbl σ.
Proof.
  intros Hv. rewrite !checkKeys_run. destruct (is_list v) eqn:Hlist; [|done].
  destruct (head _); [done|].
  rewrite bool_decide_eq_false_2; [done|].
  intros Hnil. apply nil_length_inv in Hnil.
  destruct v as [| | | |l]; try done. simpl in Hnil. by subst l.
Qed.

(** X7: the only argument whose treatment depends on the session (on
    [warnings] being imported or silenced) is the empty list.  For every
    other argument, a call does the same in every session: the
    regional-analysis notebook, which never imports [warnings], handles every
    non-empty list as [mapping.ipynb] does. *)
Theorem restrictRegionally_session_irrelevant g g' dataset v σ :
  v ≠ PyList [] →
  restrictRegionally g dataset v σ = restrictRegionally g' dataset v σ.
Proof.
  intros Hv.
  destruct (heap σ !! dataset) as [ds|] eqn:Hd.
  2:{ by rewrite !restrictRegionally_unbound. }
  destruct (decide (length (mask_keys ds) = length (mask_labels ds))) as [Hlen|Hlen].
  2:{ by rewrite !(restrictRegionally_ragged _ _ _ _ _ Hd Hlen). }
  rewrite !(restrictRegionally_run _ _ _ _ _ Hd Hlen).
  by rewrite (checkKeys_session_irrelevant g g').
Qed.

Lemma restrictRegionally_session_irrelevant_witness :
  restrictRegionally regional_analysis_env 1%positive (PyList [13]) session =
  restrictRegionally mapping_env 1%positive (PyList [13]) session.
Proof.
  apply (restrictRegionally_session_irrelevant
           regional_analysis_env mapping_env 1%positive (PyList [13]) session).
  discriminate.
Defined.

(** ** What validation and the report write *)

(** What [checkKeys] leaves on the console. *)
Lemma checkKeys_console g v tbl σ :
  console (checkKeys g v tbl σ).2 = console σ ∨
  (v = PyList [] ∧ warnings_imported g = true ∧ warnings_suppressed g = false ∧
   console (checkKeys g v tbl σ).2 = (console σ ++ [Warned empty_selection_msg])%list).
Proof.
  rewrite checkKeys_run. destruct (is_list v) eqn:Hlist; [|by left].
  destruct (head _); [by left|].
  case_bool_decide as Hnil; [|by left].
  apply nil_length_inv in Hnil.
  destruct v as [| | | |l]; try done. simpl in Hnil. subst l.
  unfold warnings_warn. destruct (warnings_imported g); [|by left].
  destruct (warnings_suppressed g); [by left|]. by right.
Qed.

(** X8: [checkKeys] never touches the store, and it never writes to the
    console either, but for one case: it is given the empty list in a session
    where [warnings] is imported and not silenced, and then it writes the
    one warning. *)
Theorem checkKeys_effects g v tbl σ :
  heap (checkKeys g v tbl σ).2 = heap σ ∧
  (console (checkKeys g v tbl σ).2 = console σ ∨
   (v = PyList [] ∧ warnings_imported g = true ∧ warnings_suppressed g = false ∧
    console (checkKeys g v tbl σ).2 = (console σ ++ [Warned empty_selection_msg])%list)).
Proof.
  split; [apply checkKeys_heap | apply checkKeys_console].
Qed.

(** X9: a call that returns has printed exactly one line, the last thing on
    the console.  For a list shorter than the catalogue the line is
    "Regions selected: " followed by the very text stored in the attribute
    "regions with data"; otherwise the attribute is "All" and the line is the
    fixed message that no region is removed. *)
Theorem restrictRegionally_report g dataset v σ ds new σ' :
  heap σ !! dataset = Some ds →
  restrictRegionally g dataset v σ = (inr new, σ') →
  ∃ ds' summary pre,
    heap σ' !! new = Some ds' ∧
    attrs ds' !! "regions with data" = Some summary ∧
    console σ' = (pre ++ [Printed
      (if bool_decide (length (elements v) < length (mask_keys ds))%nat
       then "Regions selected: " ++ summary else all_regions_msg)])%list ∧
    (pre = console σ ∨ pre = (console σ ++ [Warned empty_selection_msg])%list) ∧
    ((length (mask_keys ds) ≤ length (elements v))%nat → summary = "All").
Proof.
  intros Hd Hrun.
  apply restrictRegionally_returns_inv in Hrun
    as (ds0 & rkl & labels & σ1 & Hd0 & Hlen & -> & Hck & Hl & _ & ->).
  assert (ds0 = ds) as -> by congruence.
  pose proof (checkKeys_console g (PyList rkl) (regionTbl_of ds) σ) as Hcon.
  rewrite Hck in Hcon. simpl in Hcon.
  eexists _, _, (console σ1). split; [simpl; apply lookup_insert_eq|].
  split; [simpl; apply lookup_insert_eq|]. simpl.
  unfold report_of, summary_of.
  rewrite (labels_of_length _ _ _ Hl), regionTbl_length by done.
  split; [done|]. split.
  - destruct Hcon as [->|(_ & _ & _ & ->)]; [by left|by right].
  - intros Hle. by rewrite bool_decide_eq_false_2 by lia.
Qed.

Lemma restrictRegionally_report_witness :
  ∃ ds' summary pre,
    heap (restrictRegionally mapping_env 1%positive (PyList [13]) session).2
      !! 2%positive = Some ds' ∧
    attrs ds' !! "regions with data" = Some summary ∧
    console (restrictRegionally mapping_env 1%positive (PyList [13]) session).2 =
      (pre ++ [Printed
        (if bool_decide (length (elements (PyList [13%Z])) < length (mask_keys two_seas))%nat
         then "Regions selected: " ++ summary else all_regions_msg)])%list ∧
    (pre = console session ∨
     pre = (console session ++ [Warned empty_selection_msg])%list) ∧
    ((length (mask_keys two_seas) ≤ length (elements (PyList [13%Z])))%nat →
     summary = "All").
Proof.
  apply (restrictRegionally_report mapping_env 1%positive (PyList [13])
           session two_seas 2%positive).
  - reflexivity.
  - vm_compute; reflexivity.
Defined.

(** * Properties of the map functions *)

(** ** The two halves either side of the seam *)

Lemma float_greater_false (q value : Q) :
  float_greater (FNum q) value = false ↔ (q <= value)%Q.
Proof.
  simpl. rewrite negb_false_iff. apply Qle_bool_iff.
Qed.

Lemma float_less_false (q value : Q) :
  float_less (FNum q) value = false ↔ (value <= q)%Q.
Proof.
  simpl. rewrite negb_false_iff. apply Qle_bool_iff.
Qed.

Lemma unmasked_greater (lon : list float) (data : list cell) i x :
  lon !! i = Some x →
  unmasked (dataGreater lon data) i ↔ float_greater x (-(1#100))%Q = false.
Proof.
  intros Hx. unfold unmasked, dataGreater, lonGreater, masked_greater. simpl.
  rewrite list_lookup_fmap, Hx. simpl. split; [by intros [= ->]|by intros ->].
Qed.

Lemma unmasked_lesser (lon : list float) (data : list cell) i x :
  lon !! i = Some x →
  unmasked (dataLesser lon data) i ↔ float_less x 0%Q = false.
Proof.
  intros Hx. unfold unmasked, dataLesser, lonLesser, masked_less. simpl.
  rewrite list_lookup_fmap, Hx. simpl. split; [by intros [= ->]|by intros ->].
Qed.

(** X10: the two contour calls of a panel get the concentration under two
    masks computed from the longitude, and the latitude and the longitude
    under the same two masks.  A cell whose longitude is a number takes part
    in the first call exactly when the longitude is at most -0.01 and in the
    second exactly when it is at least 0: never in both, and in neither when
    the longitude lies strictly between -0.01 and 0. *)
Theorem seam_halves (lon lat : list float) (data : list cell) (i : nat) (q : Q) :
  lon !! i = Some (FNum q) →
  (unmasked (dataGreater lon data) i ↔ (q <= -(1#100))%Q) ∧
  (unmasked (dataLesser lon data) i ↔ (0 <= q)%Q) ∧
  ¬ (unmasked (dataGreater lon data) i ∧ unmasked (dataLesser lon data) i) ∧
  ((-(1#100) < q)%Q → (q < 0)%Q →
     ¬ unmasked (dataGreater lon data) i ∧ ¬ unmasked (dataLesser lon data) i) ∧
  ma_mask (lonGreater lon) = ma_mask (dataGreater lon data) ∧
  ma_mask (latGreater lon lat) = ma_mask (dataGreater lon data) ∧
  ma_mask (lonLesser lon) = ma_mask (dataLesser lon data) ∧
  ma_mask (latLesser lon lat) = ma_mask (dataLesser lon data).
Proof.
  intros Hq.
  pose proof (unmasked_greater lon data i _ Hq) as Hg.
  pose proof (unmasked_lesser lon data i _ Hq) as Hl.
  rewrite float_greater_false in Hg. rewrite float_less_false in Hl.
  split; [done|]. split; [done|]. split; [|split; [|done]].
  - rewrite Hg, Hl. intros [Hle Hge].
    assert (0 <= -(1#100))%Q as Habs by (by eapply Qle_trans).
    by apply Qle_bool_iff in Habs.
  - rewrite Hg, Hl. intros Hlo Hhi. split; intros Hle.
    + by apply (Qlt_not_le _ _ Hlo).
    + by apply (Qlt_not_le _ _ Hhi).
Qed.

Lemma seam_halves_witness :
  (unmasked (dataGreater [FNum (-(5#1000))] [Num 7]) 0 ↔ (-(5#1000) <= -(1#100))%Q) ∧
  (unmasked (dataLesser [FNum (-(5#1000))] [Num 7]) 0 ↔ (0 <= -(5#1000))%Q) ∧
  ¬ (unmasked (dataGreater [FNum (-(5#1000))] [Num 7]) 0 ∧
     unmasked (dataLesser [FNum (-(5#1000))] [Num 7]) 0) ∧
  ((-(1#100) < -(5#1000))%Q → (-(5#1000) < 0)%Q →
     ¬ unmasked (dataGreater [FNum (-(5#1000))] [Num 7]) 0 ∧
     ¬ unmasked (dataLesser [FNum (-(5#1000))] [Num 7]) 0) ∧
  ma_mask (lonGreater [FNum (-(5#1000))]) =
    ma_mask (dataGreater [FNum (-(5#1000))] [Num 7]) ∧
  ma_mask (latGreater [FNum (-(5#1000))] [FNum 80]) =
    ma_mask (dataGreater [FNum (-(5#1000))] [Num 7]) ∧
  ma_mask (lonLesser [FNum (-(5#1000))]) =
    ma_mask (dataLesser [FNum (-(5#1000))] [Num 7]) ∧
  ma_mask (latLesser [FNum (-(5#1000))] [FNum 80]) =
    ma_mask (dataLesser [FNum (-(5#1000))] [Num 7]).
Proof.
  apply (seam_halves [FNum (-(5#1000))] [FNum 80] [Num 7] 0 (-(5#1000))%Q).
  reflexivity.
Defined.

Example cell_in_the_gap :
  ¬ unmasked (dataGreater [FNum (-(5#1000))] [Num 7]) 0 ∧
  ¬ unmasked (dataLesser [FNum (-(5#1000))] [Num 7]) 0.
Proof. split; intros Hm; vm_compute in Hm; discriminate. Qed.

(** X11: a cell whose longitude is the sentinel is masked in neither half
    (both comparisons are false on it), so it takes part in both contour
    calls. *)
Theorem seam_halves_nan (lon : list float) (data : list cell) (i : nat) :
  lon !! i = Some FNaN →
  unmasked (dataGreater lon data) i ∧ unmasked (dataLesser lon data) i.
Proof.
  intros Hnan. split.
  - by apply (unmasked_greater lon data i _ Hnan).
  - by apply (unmasked_lesser lon data i _ Hnan).
Qed.

Lemma seam_halves_nan_witness :
  unmasked (dataGreater [FNum 3; FNaN] [Num 7; Num 8]) 1 ∧
  unmasked (dataLesser [FNum 3; FNaN] [Num 7; Num 8]) 1.
Proof.
  apply (seam_halves_nan [FNum 3; FNaN] [Num 7; Num 8] 1). reflexivity.
Defined.

(** ** The ice edge and the field of a panel *)

(** X13: the ice edge of a map does not depend on a regional restriction: the
    dataset [restrictRegionally] returns gives, for every time step, the very
    array (or the very failure) the input dataset gives. *)
Theorem SICarray_after_restriction g dataset v σ ds new σ' :
  heap σ !! dataset = Some ds →
  restrictRegionally g dataset v σ = (inr new, σ') →
  ∃ ds',
    heap σ' !! new = Some ds' ∧
    ∀ i, SICarray ds' i = SICarray ds i.
Proof.
  intros Hd Hrun.
  apply restrictRegionally_returns_inv in Hrun
    as (ds0 & rkl & labels & σ1 & Hd0 & _ & _ & _ & _ & _ & ->).
  assert (ds0 = ds) as -> by congruence.
  set (ds' := with_attr (masked ds rkl) "regions with data"
                (summary_of (regionTbl_of ds) rkl labels)).
  assert (data_vars ds' !! conc = data_vars ds !! conc) as Hconc
    by apply masked_conc.
  assert (region_mask ds' = region_mask ds) as Hmask by done.
  exists ds'. split; [simpl; apply lookup_insert_eq|].
  intros i. unfold SICarray, getvar. by rewrite Hconc, Hmask.
Qed.

Lemma SICarray_after_restriction_witness :
  ∃ ds',
    heap (restrictRegionally mapping_env 1%positive (PyList [13]) session).2
      !! 2%positive = Some ds' ∧
    ∀ i, SICarray ds' i = SICarray two_seas i.
Proof.
  apply (SICarray_after_restriction mapping_env 1%positive (PyList [13])
           session two_seas 2%positive).
  - reflexivity.
  - vm_compute; reflexivity.
Defined.

Lemma where_cond_row_lookup crow row i :
  where_cond_row crow row !! i =
  (λ c : cell, match (crow !! i : option bool) with
               | Some b => if b then c else NaN
               | None => c
               end) <$> row !! i.
Proof. unfold where_cond_row. by rewrite list_lookup_imap. Qed.

Lemma where_cond_where_row keep mask crow row :
  where_cond_row crow (where_row keep mask row) =
  where_row keep mask (where_cond_row crow row).
Proof.
  apply list_eq. intros i.
  rewrite where_cond_row_lookup, !where_row_lookup, where_cond_row_lookup.
  destruct (row !! i) as [c|]; [simpl|done]. f_equal.
  destruct (crow !! i) as [[]|], (mask !! i) as [r|]; try done;
    by destruct (keep r).
Qed.

Lemma ice_field_rows gt_half ds dataVar i vals cvals :
  data_vars ds !! dataVar = Some vals →
  data_vars ds !! conc = Some cvals →
  ice_field gt_half ds dataVar i =
  match vals !! i with
  | Some row =>
      inr (match gt_half_array gt_half cvals !! i with
           | Some crow => where_cond_row crow row
           | None => row
           end)
  | None =>
      inl (IndexError ("index " ++ pretty i ++ " is out of bounds for axis 0 with size "
                       ++ pretty (length vals)))
  end.
Proof.
  intros Hv Hc. unfold ice_field, getvar, isel, where_cond. rewrite Hv, Hc.
  cbn [values]. rewrite list_lookup_imap, length_imap.
  by destruct (vals !! i).
Qed.

(** X14: on the dataset [restrictRegionally] returns, the field a panel shows
    for a variable other than the concentration is the field the input
    dataset gives with the regional mask laid over it: a cell is shown only
    if the unrestricted map shows it, and then only if its region identifier
    is in the selection or is no catalogued key. *)
Theorem ice_field_after_restriction gt_half g dataset rkl σ ds new σ' dataVar i field :
  heap σ !! dataset = Some ds →
  restrictRegionally g dataset (PyList rkl) σ = (inr new, σ') →
  dataVar ≠ conc →
  ice_field gt_half ds dataVar i = inr field →
  ∃ ds',
    heap σ' !! new = Some ds' ∧
    ice_field gt_half ds' dataVar i =
    inr (where_row (λ r, bool_decide (r ∈ rkl ∨ r ∉ mask_keys ds))
           (region_mask ds) field).
Proof.
  intros Hd Hrun Hvar Hfield.
  destruct (returned_data_vars _ _ _ _ _ _ _ Hd Hrun)
    as (ds' & Hd' & Hmask & _ & _ & _ & Hvars).
  exists ds'. split; [done|].
  unfold ice_field, getvar in Hfield.
  destruct (data_vars ds !! dataVar) as [vals|] eqn:Hvals; [|done].
  destruct (data_vars ds !! conc) as [cvals|] eqn:Hcvals; [|done].
  fold (getvar ds dataVar) in Hfield.
  assert (ice_field gt_half ds dataVar i = inr field) as Hfield'.
  { unfold ice_field, getvar. by rewrite Hvals, Hcvals. }
  clear Hfield. rewrite (ice_field_rows _ _ _ _ _ _ Hvals Hcvals) in Hfield'.
  destruct (vals !! i) as [row|] eqn:Hrow; [|done]. injection Hfield' as <-.
  set (ks := filter (λ key, key ∉ rkl) (mask_keys ds)) in *.
  assert (data_vars ds' !! dataVar = Some (mask_loop ks (region_mask ds) vals)) as Hv'.
  { rewrite Hvars, mask_vars_lookup, Hvals. simpl.
    by rewrite bool_decide_eq_true_2. }
  assert (data_vars ds' !! conc = Some cvals) as Hc'.
  { rewrite Hvars, mask_vars_lookup, Hcvals. reflexivity. }
  rewrite (ice_field_rows _ _ _ _ _ _ Hv' Hc').
  rewrite mask_loop_where, list_lookup_fmap, Hrow. simpl. f_equal.
  assert (∀ row0, where_row (λ r, bool_decide (r ∉ ks)) (region_mask ds) row0 =
                  where_row (λ r, bool_decide (r ∈ rkl ∨ r ∉ mask_keys ds))
                    (region_mask ds) row0) as Hkeep.
  { intros row0. apply where_row_ext. intros r _. apply bool_decide_ext.
    unfold ks. rewrite list_elem_of_filter.
    destruct (decide (r ∈ rkl)), (decide (r ∈ mask_keys ds)); tauto. }
  rewrite Hkeep.
  destruct (gt_half_array gt_half cvals !! i) as [crow|]; [|done].
  apply where_cond_where_row.
Qed.

Lemma ice_field_after_restriction_witness :
  ∃ ds',
    heap (restrictRegionally mapping_env 1%positive (PyList [13]) session).2
      !! 2%positive = Some ds' ∧
    ice_field (λ x, bool_decide (8 ≤ x)%Z) ds' "ice_thickness" 0 =
    inr (where_row (λ r, bool_decide (r ∈ [13] ∨ r ∉ mask_keys two_seas))
           (region_mask two_seas) [NaN; Num 2; Num 3]).
Proof.
  apply (ice_field_after_restriction (λ x, bool_decide (8 ≤ x)%Z)
           mapping_env 1%positive [13] session two_seas 2%positive).
  - reflexivity.
  - vm_compute; reflexivity.
  - discriminate.
  - vm_compute; reflexivity.
Defined.

(** ** The panels of [plotWinterMaps] *)

Lemma plot_bind_run {A B : Type} (m : P A) (f : A → P B) figure :
  (m ≫= f) figure =
  match m figure with
  | (inl e, figure') => (inl e, figure')
  | (inr a, figure') => f a figure'
  end.
Proof. reflexivity. Qed.

(** One turn of the loop on an index that has an axis and its arrays. *)
Lemma winter_panels_step gt_half md dataVar minval maxval cmap i rest im figure
    field sic month :
  (i < 6)%nat →
  ice_field gt_half (grid md) dataVar i = inr field →
  SICarray (grid md) i = inr sic →
  time md !! i = Some month →
  winter_panels gt_half md dataVar minval maxval cmap (i :: rest) im figure =
  winter_panels gt_half md dataVar minval maxval cmap rest (Some i)
    (figure ++
     [Pcolormesh i field minval maxval cmap;
      Contour i (lonGreater (longitude md))
        (latGreater (longitude md) (latitude md))
        (dataGreater (longitude md) sic);
      Contour i (lonLesser (longitude md))
        (latLesser (longitude md) (latitude md))
        (dataLesser (longitude md) sic);
      Features i; Title i month])%list.
Proof.
  intros Hi Hfield Hsic Hmonth. cbn [winter_panels].
  rewrite plot_bind_run. unfold axs_flatten. rewrite decide_True by done.
  change ((mret i : P nat) figure) with (@inr plot_exn nat i, figure).
  cbv beta iota. rewrite plot_bind_run, Hfield.
  change (plot_eval (inr field) figure) with (@inr plot_exn _ field, figure).
  cbv beta iota. rewrite plot_bind_run. unfold plot_call at 1. cbv beta iota.
  rewrite plot_bind_run, Hsic.
  match goal with
  | |- context [plot_eval (inr sic) ?f] =>
      change (plot_eval (inr sic) f) with (@inr plot_exn _ sic, f)
  end.
  cbv beta iota. rewrite plot_bind_run. unfold plot_call at 1. cbv beta iota.
  rewrite plot_bind_run. unfold plot_call at 1. cbv beta iota.
  rewrite plot_bind_run. unfold plot_call at 1. cbv beta iota.
  rewrite plot_bind_run, Hmonth.
  match goal with
  | |- context [plot_eval (inr month) ?f] =>
      change (plot_eval (inr month) f) with (@inr plot_exn _ month, f)
  end.
  cbv beta iota. rewrite plot_bind_run. unfold plot_call at 1. cbv beta iota.
  by rewrite <- !app_assoc.
Qed.

Lemma meshes_app (f1 f2 : list draw) : meshes (f1 ++ f2) = (meshes f1 ++ meshes f2)%list.
Proof. unfold meshes. apply omap_app. Qed.

(** The loop gets through a run of drawable indices: it draws five things per
    index, the field first, and leaves [im] bound to the last of them. *)
Lemma winter_panels_app gt_half md dataVar minval maxval cmap good :
  Forall (drawable gt_half md dataVar) good →
  ∃ body,
    meshes body = good ∧
    length body = (5 * length good)%nat ∧
    Forall panel_call body ∧
    ∀ rest im figure,
      winter_panels gt_half md dataVar minval maxval cmap (good ++ rest) im figure =
      winter_panels gt_half md dataVar minval maxval cmap rest
        (from_option Some im (last good)) (figure ++ body)%list.
Proof.
  induction 1 as [|i good (Hi & field & sic & month & Hf & Hs & Hm) _
                    (body & Hmesh & Hlen & Hcalls & IH)].
  - exists []. repeat split; [constructor|].
    intros rest im figure. by rewrite app_nil_r.
  - exists ([Pcolormesh i field minval maxval cmap;
             Contour i (lonGreater (longitude md))
               (latGreater (longitude md) (latitude md))
               (dataGreater (longitude md) sic);
             Contour i (lonLesser (longitude md))
               (latLesser (longitude md) (latitude md))
               (dataLesser (longitude md) sic);
             Features i; Title i month] ++ body)%list.
    split; [|split; [|split]].
    + rewrite meshes_app, Hmesh. reflexivity.
    + rewrite length_app, Hlen. simpl. lia.
    + apply Forall_app. split; [|exact Hcalls]. by repeat constructor.
    + intros rest im figure. cbn [app].
      rewrite (winter_panels_step _ _ _ _ _ _ _ _ _ _ _ _ _ Hi Hf Hs Hm).
      rewrite IH, <- app_assoc. f_equal.
      rewrite last_cons. by destruct (last good).
Qed.

Lemma drawable_months gt_half md dataVar n :
  every_month_available gt_half md dataVar →
  (n ≤ 6)%nat → (n ≤ length (time md))%nat →
  Forall (drawable gt_half md dataVar) (seq 0 n).
Proof.
  intros Hall Hn Hlen. apply Forall_forall. intros i Hi.
  apply elem_of_seq in Hi as [_ Hi]. split; [lia|].
  destruct (Hall i) as (field & sic & Hf & Hs); [lia|].
  destruct (lookup_lt_is_Some_2 (time md) i) as [month Hm]; [lia|].
  by exists field, sic, month.
Qed.

Lemma panel_call_not_in (d : draw) body :
  Forall panel_call body → ¬ panel_call d → d ∉ body.
Proof.
  intros Hall Hd Hin. rewrite Forall_forall in Hall. by apply Hd, Hall.
Qed.

(** X15: the figure has six axes.  On a dataset with more than six time steps
    the function draws the first six panels and then fails with the
    [IndexError] of the seventh axis: no colour bar is drawn, nothing is
    saved and the figure is not shown. *)
Theorem plotWinterMaps_more_than_six_months gt_half md dataVar minval maxval
    cbarTicks title cmap figPath :
  every_month_available gt_half md dataVar →
  (6 < length (time md))%nat →
  ∃ figure,
    plotWinterMaps gt_half md dataVar minval maxval cbarTicks title cmap figPath [] =
    (inl (IndexError "index 6 is out of bounds for axis 0 with size 6"), figure) ∧
    meshes figure = seq 0 6 ∧
    (ShowFigure ∉ figure) ∧
    (∀ path, Savefig path ∉ figure) ∧
    (∀ im ticks, Colorbar im ticks ∉ figure).
Proof.
  intros Hall Hlen.
  destruct (winter_panels_app gt_half md dataVar minval maxval cmap (seq 0 6))
    as (body & Hmesh & _ & Hcalls & Hrun).
  { apply drawable_months; [done|lia|lia]. }
  exists body. split; [|split; [done|]].
  - unfold plotWinterMaps. rewrite plot_bind_run.
    replace (length (time md)) with (6 + S (length (time md) - 7))%nat by lia.
    rewrite seq_app. cbn [seq]. rewrite Hrun. cbn [app winter_panels].
    rewrite plot_bind_run. reflexivity.
  - split; [|split]; intros; apply (panel_call_not_in _ _ Hcalls); intros [].
Qed.

Lemma plotWinterMaps_more_than_six_months_witness :
  ∃ figure,
    plotWinterMaps (λ x, bool_decide (8 ≤ x)%Z) (months 7) "ice_thickness" 0 4
      None "Winter" "viridis" None [] =
    (inl (IndexError "index 6 is out of bounds for axis 0 with size 6"), figure) ∧
    meshes figure = seq 0 6 ∧
    (ShowFigure ∉ figure) ∧
    (∀ path, Savefig path ∉ figure) ∧
    (∀ im ticks, Colorbar im ticks ∉ figure).
Proof.
  apply (plotWinterMaps_more_than_six_months (λ x, bool_decide (8 ≤ x)%Z)
           (months 7) "ice_thickness").
  - intros i Hi. simpl in Hi.
    do 7 (destruct i as [|i]; [eexists _, _; split; vm_compute; reflexivity|]).
    lia.
  - simpl. lia.
Defined.

(** X16: on a dataset without any time step the loop draws nothing and leaves
    [im] unbound; the function then fails where the colour bar is made from
    [im], after the title of the figure has been set. *)
Theorem plotWinterMaps_no_month gt_half md dataVar minval maxval cbarTicks
    title cmap figPath :
  time md = [] →
  is_Some (data_vars (grid md) !! dataVar) →
  plotWinterMaps gt_half md dataVar minval maxval cbarTicks title cmap figPath [] =
  (inl (UnboundLocalError "local variable 'im' referenced before assignment"),
   [Suptitle title]).
Proof.
  intros Htime [vals Hvals]. unfold plotWinterMaps, getvar.
  by rewrite Htime, Hvals.
Qed.

Lemma plotWinterMaps_no_month_witness :
  plotWinterMaps (λ x, bool_decide (8 ≤ x)%Z) (months 0) "ice_thickness" 0 4
    None "Winter" "viridis" None [] =
  (inl (UnboundLocalError "local variable 'im' referenced before assignment"),
   [Suptitle "Winter"]).
Proof.
  apply (plotWinterMaps_no_month (λ x, bool_decide (8 ≤ x)%Z) (months 0)
           "ice_thickness").
  - reflexivity.
  - vm_compute. eauto.
Defined.



(** ** The ticks of the colour bar *)



Example colorbar_ticks_of_the_book :
  colorbar_ticks 0 4 None = IntTicks [0; 1; 2; 3; 4] ∧
  colorbar_ticks (-40) (-20) (Some [-40; -35; -30; -25; -20]) =
  IntTicks [-40; -35; -30; -25; -20].
Proof. split; reflexivity. Qed.
